(** * jb-recall: the indexing and retrieval pipeline of [recall.py]

    A shallow embedding of [chunk_text], [index_file], [index_directory],
    [search] and [handle_command], and the properties of the pipeline that
    the specification states about them.

    Python values are modelled as follows.
    - [str] is [string]; a character is a code point below 256.
    - [int] is [Z]; an index into a sequence is a [nat] once it is known to
      be in range.
    - [float] is the binary64 [float] of the kernel.
    - a raised exception is the [Raise] outcome of the [M] monad; the store
      and the call log survive a raise, as the collection does in Python. *)

From Stdlib Require Import ZArith Lia String Ascii List Bool.
From Stdlib Require Import DecimalString DecimalNat.
From stdpp Require Import base option list strings gmap.

Local Open Scope Z_scope.

(** ** Python strings *)

Module PyStr.

(** [len(s)] *)
Definition len (s : string) : Z := Z.of_nat (String.length s).

(** The bounds of [s[a:b]]: a negative index counts from the end, and both
    ends are clamped into [0, len]. *)
Definition clamp_index (n i : Z) : Z :=
  if i <? 0 then Z.max 0 (i + n) else Z.min i n.

(** [s[a:b]] *)
Definition slice (s : string) (a b : Z) : string :=
  let lo := clamp_index (len s) a in
  let hi := clamp_index (len s) b in
  String.substring (Z.to_nat lo) (Z.to_nat (hi - lo)) s.

(** [c.isspace()] on the code points below 256: TAB..CR, FS..US, space,
    NEL and the no-break space. *)
Definition isspace (c : ascii) : bool :=
  let n := N_of_ascii c in
  (((9 <=? n) && (n <=? 13)) || ((28 <=? n) && (n <=? 32))
   || (n =? 133) || (n =? 160))%N.

Fixpoint lstrip (s : string) : string :=
  match s with
  | EmptyString => EmptyString
  | String c s' => if isspace c then lstrip s' else s
  end.

Fixpoint rstrip (s : string) : string :=
  match s with
  | EmptyString => EmptyString
  | String c s' =>
      match rstrip s' with
      | EmptyString => if isspace c then EmptyString else String c EmptyString
      | r => String c r
      end
  end.

(** [s.strip()] *)
Definition strip (s : string) : string := rstrip (lstrip s).

(** The truth value of a string: it is not empty. *)
Definition truthy (s : string) : bool :=
  match s with EmptyString => false | String _ _ => true end.

(** Some character of [s] is not whitespace. *)
Fixpoint has_ink (s : string) : bool :=
  match s with
  | EmptyString => false
  | String c s' => negb (isspace c) || has_ink s'
  end.

(** No character of [s] is whitespace. *)
Fixpoint all_ink (s : string) : bool :=
  match s with
  | EmptyString => true
  | String c s' => negb (isspace c) && all_ink s'
  end.

(** [c * n] for a one-character string [c]. *)
Fixpoint repeat_char (c : ascii) (n : nat) : string :=
  match n with
  | O => EmptyString
  | S n' => String c (repeat_char c n')
  end.

(** [s.startswith(p)] *)
Definition startswith (s p : string) : bool := String.prefix p s.

(** [s.lower()] on a code point below 256: A..Z and the capital letters
    of Latin-1, without the multiplication sign. *)
Definition lower_char (c : ascii) : ascii :=
  let n := N_of_ascii c in
  if (((65 <=? n) && (n <=? 90))
      || ((192 <=? n) && (n <=? 222) && negb (n =? 215)))%N
  then ascii_of_N (n + 32) else c.

Fixpoint lower (s : string) : string :=
  match s with
  | EmptyString => EmptyString
  | String c s' => String (lower_char c) (lower s')
  end.

(** [s.rfind(c)], [None] for -1. *)
Fixpoint rfind (s : string) (c : ascii) : option nat :=
  match s with
  | EmptyString => None
  | String d s' =>
      match rfind s' c with
      | Some i => Some (S i)
      | None => if Ascii.eqb d c then Some O else None
      end
  end.

(** [sep.join(l)] *)
Fixpoint join (sep : string) (l : list string) : string :=
  match l with
  | [] => EmptyString
  | [x] => x
  | x :: l' => x +:+ sep +:+ join sep l'
  end.

(** [str(i)] for a natural number. *)
Definition of_nat (i : nat) : string := NilEmpty.string_of_uint (Nat.to_uint i).

End PyStr.

(** ** The chunker: [chunk_text] *)

Module Chunker.

(** The variables of the [while] loop. *)
Record loop_state := { start : Z; chunks : list string }.

(** [start < len(text)] *)
Definition loop_cond (text : string) (st : loop_state) : bool :=
  start st <? PyStr.len text.

(** One turn of the loop body. *)
Definition loop_body (text : string) (chunk_size overlap : Z) (st : loop_state)
  : loop_state :=
  let end_ := start st + chunk_size in
  let chunk := PyStr.slice text (start st) end_ in
  {| start := end_ - overlap;
     chunks := if PyStr.truthy (PyStr.strip chunk)
               then chunks st ++ [chunk] else chunks st |}.

(** The loop, run for at most [fuel] turns; [None] when the condition still
    holds after them. *)
Fixpoint loop (fuel : nat) (text : string) (chunk_size overlap : Z)
  (st : loop_state) : option loop_state :=
  if loop_cond text st then
    match fuel with
    | O => None
    | S fuel' => loop fuel' text chunk_size overlap
                   (loop_body text chunk_size overlap st)
    end
  else Some st.

Definition chunk_text_fuel (fuel : nat) (text : string) (chunk_size overlap : Z)
  : option (list string) :=
  chunks <$> loop fuel text chunk_size overlap {| start := 0; chunks := [] |}.

(** [chunk_text(text, chunk_size, overlap)]. One turn for each character is
    enough whenever the loop ends at all ([chunk_text_None_iff]): [None]
    stands for the loop that never ends. *)
Definition chunk_text (text : string) (chunk_size overlap : Z)
  : option (list string) :=
  chunk_text_fuel (String.length text) text chunk_size overlap.

(** The state after [n] turns of the body, whatever the condition says. *)
Fixpoint turns (n : nat) (text : string) (chunk_size overlap : Z)
  (st : loop_state) : loop_state :=
  match n with
  | O => st
  | S n' => turns n' text chunk_size overlap (loop_body text chunk_size overlap st)
  end.

(** *** The chunker as the specification words it *)

(** The start positions 0, step, 2*step, ... below [n]. *)
Definition spec_starts (n step : Z) : list Z :=
  filter (λ s, s < n) (map (λ k, Z.of_nat k * step) (seq 0 (Z.to_nat n))).

(** The windows [text[start : start+size]], one per start position. *)
Definition spec_windows (text : string) (size overlap : Z) : list string :=
  map (λ s, PyStr.slice text s (s + size))
      (spec_starts (PyStr.len text) (size - overlap)).

(** A window is kept iff something is left of it after trimming. *)
Definition spec_chunk (text : string) (size overlap : Z) : list string :=
  filter (λ w, PyStr.strip w ≠ EmptyString) (spec_windows text size overlap).

End Chunker.

(** ** Outcomes, exceptions and the monad of the pipeline *)

From Stdlib Require Import Floats.

(** The exceptions the pipeline can meet. *)
Inductive exn :=
| OSError
| UnicodeDecodeError
| KeyError (key : string)
| IndexError
| ValueError
| AttributeError
| RuntimeError (msg : string).

(** What a call comes to: a value, a raised exception, or no return at all. *)
Inductive outcome (A : Type) :=
| Ok (a : A)
| Raise (e : exn)
| Hang.
Arguments Ok {A} a.
Arguments Raise {A} e.
Arguments Hang {A}.

(** An embedding: [encode(...).tolist()] gives one list of floats per text. *)
Definition vec := list float.

(** The metadata dictionary of a chunk record. *)
Record metadata := {
  path : string;
  filename : string;
  chunk_idx : nat;
  hash : string
}.

(** A chunk record of the collection. *)
Record record := {
  id : string;
  embedding : vec;
  document : string;
  meta : metadata
}.

(** The answer of [collection.query]: one inner list per query embedding. *)
Record query_result := {
  q_ids : list (list string);
  q_distances : list (list float);
  q_documents : list (list string);
  q_metadatas : list (list metadata)
}.

(** The calls made to the collaborators and to the chunker, in order. *)
Inductive event :=
| EGet (where_path : option string)
| EDelete (ids : list string)
| EAdd (ids : list string)
| EQuery (n_results : Z)
| ECount
| EEncode (texts : list string)
| EChunk (text : string).

(** The collection behind the handle, in insertion order, and the calls
    made so far. *)
Record world := {
  store : list record;
  trace : list event
}.

Definition M (A : Type) : Type := world → outcome A * world.

Definition ret {A} (a : A) : M A := λ w, (Ok a, w).

Definition bind {A B} (m : M A) (k : A → M B) : M B :=
  λ w, match m w with
       | (Ok a, w') => k a w'
       | (Raise e, w') => (Raise e, w')
       | (Hang, w') => (Hang, w')
       end.

Notation "x <- m ;; k" := (bind m (λ x, k))
  (at level 100, m at next level, right associativity).
Notation "m ;;; k" := (bind m (λ _, k))
  (at level 100, right associativity).

(** A collaborator's outcome, inside the monad. *)
Definition lift {A} (o : outcome A) : M A := λ w, (o, w).

Definition emit (e : event) : M unit :=
  λ w, (Ok tt, {| store := store w; trace := trace w ++ [e] |}).

Definition get_store : M (list record) := λ w, (Ok (store w), w).

Definition put_store (s : list record) : M unit :=
  λ w, (Ok tt, {| store := s; trace := trace w |}).

(** ** The store collaborator: a Chroma collection *)

Module Coll.

(** The records [get(where={"path": p})] matches, [get()] all of them. *)
Definition select (where_path : option string) (s : list record) : list record :=
  match where_path with
  | Some p => filter (λ r, path (meta r) = p) s
  | None => s
  end.

(** What [delete(ids=...)] leaves. *)
Definition remove (ids : list string) (s : list record) : list record :=
  filter (λ r, id r ∉ ids) s.

(** [add] takes the records one by one: a record whose id is already in the
    collection is ignored, the others are appended. *)
Fixpoint insert_all (rs : list record) (s : list record) : list record :=
  match rs with
  | [] => s
  | r :: rs' =>
      if decide (id r ∈ map id s) then insert_all rs' s
      else insert_all rs' (s ++ [r])
  end.

(** The batch [add] builds from its four parallel arguments. *)
Fixpoint zip_records (ids : list string) (embeddings : list vec)
  (documents : list string) (metadatas : list metadata) : list record :=
  match ids, embeddings, documents, metadatas with
  | i :: ids', e :: es', d :: ds', m :: ms' =>
      {| id := i; embedding := e; document := d; meta := m |}
      :: zip_records ids' es' ds' ms'
  | _, _, _, _ => []
  end.

(** [add] refuses a batch that is empty, whose arguments differ in length,
    or that names an id twice. *)
Definition valid_batch (ids : list string) (embeddings : list vec)
  (documents : list string) (metadatas : list metadata) : bool :=
  bool_decide (ids ≠ [])
  && bool_decide (length embeddings = length ids)
  && bool_decide (length documents = length ids)
  && bool_decide (length metadatas = length ids)
  && bool_decide (NoDup ids).

(** [collection.get(where=...)] *)
Definition get (where_path : option string) : M (list record) :=
  emit (EGet where_path) ;;;
  s <- get_store ;;
  ret (select where_path s).

(** [collection.delete(ids=...)] *)
Definition delete (ids : list string) : M unit :=
  emit (EDelete ids) ;;;
  s <- get_store ;;
  put_store (remove ids s).

(** [collection.add(ids=..., embeddings=..., documents=..., metadatas=...)] *)
Definition add (ids : list string) (embeddings : list vec)
  (documents : list string) (metadatas : list metadata) : M unit :=
  emit (EAdd ids) ;;;
  if valid_batch ids embeddings documents metadatas then
    s <- get_store ;;
    put_store (insert_all (zip_records ids embeddings documents metadatas) s)
  else lift (Raise ValueError).

(** [collection.count()] *)
Definition count : M nat :=
  emit ECount ;;;
  s <- get_store ;;
  ret (length s).

End Coll.

(** ** Paths: [pathlib.Path], POSIX flavour *)

Module PyPath.

(** A path is its [parts]; the root, when there is one, is the first part. *)
Definition t := list string.

(** [s.split("/")] *)
Fixpoint split_slash (cur : string) (s : string) : list string :=
  match s with
  | EmptyString => [String.rev cur]
  | String c s' =>
      if Ascii.eqb c "/" then String.rev cur :: split_slash EmptyString s'
      else split_slash (String c cur) s'
  end.

(** The root of a path string: "/" for a leading slash, "//" for exactly
    two of them. *)
Definition root_of (s : string) : option string :=
  match s with
  | String "/" (String "/" (String "/" _)) => Some "/"
  | String "/" (String "/" _) => Some "//"
  | String "/" _ => Some "/"
  | _ => None
  end.

Definition is_root (part : string) : bool :=
  bool_decide (part = "/") || bool_decide (part = "//").

(** [Path(s)]: empty segments and "." segments are dropped. *)
Definition of_string (s : string) : t :=
  let segs := filter (λ x, x ≠ EmptyString ∧ x ≠ ".") (split_slash EmptyString s) in
  match root_of s with
  | Some r => r :: segs
  | None => segs
  end.

(** [str(p)] *)
Definition to_string (p : t) : string :=
  match p with
  | [] => "."
  | r :: segs => if is_root r then r +:+ PyStr.join "/" segs
                 else PyStr.join "/" p
  end.

Definition is_absolute (p : t) : bool :=
  match p with
  | r :: _ => is_root r
  | [] => false
  end.

(** [p.absolute()], under the working directory [cwd]. *)
Definition absolute (cwd : t) (p : t) : t :=
  if is_absolute p then p else cwd ++ p.

(** [p.name]: the last part, unless it is the root. *)
Definition name (p : t) : string :=
  match last p with
  | Some x => if is_root x then EmptyString else x
  | None => EmptyString
  end.

(** [p.suffix]: the name from its last dot on, when that dot is neither the
    first nor the last character. *)
Definition suffix (p : t) : string :=
  let nm := name p in
  match PyStr.rfind nm "." with
  | Some i =>
      if bool_decide (0 < i < String.length nm - 1)%nat
      then PyStr.slice nm (Z.of_nat i) (PyStr.len nm)
      else EmptyString
  | None => EmptyString
  end.

End PyPath.

(** ** The file system *)

Module FS.

(** A regular file is what reading it gives: [text] is the outcome of
    [path.read_text(encoding='utf-8')], [digest] that of [file_hash(path)].
    A directory lists its entries in the order the system scans them. *)
#[warning="-register-all"]
Inductive node :=
| File (text : outcome string) (digest : outcome string)
| Dir (entries : list (string * node)).

Record t := {
  cwd : PyPath.t;
  root : node
}.

Fixpoint lookup_entry (nm : string) (entries : list (string * node)) : option node :=
  match entries with
  | [] => None
  | (k, n) :: rest => if decide (k = nm) then Some n else lookup_entry nm rest
  end.

(** The node the segments [segs] lead to from [n]. *)
Fixpoint descend (n : node) (segs : list string) : option node :=
  match segs with
  | [] => Some n
  | s :: segs' =>
      match n with
      | Dir entries =>
          match lookup_entry s entries with
          | Some n' => descend n' segs'
          | None => None
          end
      | File _ _ => None
      end
  end.

(** The node a path names, if it exists. *)
Definition resolve (fs : t) (p : PyPath.t) : option node :=
  match PyPath.absolute (cwd fs) p with
  | r :: segs => if PyPath.is_root r then descend (root fs) segs else None
  | [] => None
  end.

(** [p.exists()] *)
Definition exists_ (fs : t) (p : PyPath.t) : bool :=
  match resolve fs p with Some _ => true | None => false end.

(** [p.is_file()] *)
Definition is_file (fs : t) (p : PyPath.t) : bool :=
  match resolve fs p with Some (File _ _) => true | _ => false end.

(** [p.read_text(encoding='utf-8')] *)
Definition read_text (fs : t) (p : PyPath.t) : outcome string :=
  match resolve fs p with
  | Some (File text _) => text
  | _ => Raise OSError
  end.

(** Reading the bytes of [p] and taking their MD5 digest, as [file_hash]
    does. *)
Definition read_digest (fs : t) (p : PyPath.t) : outcome string :=
  match resolve fs p with
  | Some (File _ digest) => digest
  | _ => Raise OSError
  end.

(** The directories [rglob] goes through: [p] itself, then those below each
    of its subdirectories, in scan order. *)
Fixpoint iterate_directories (p : PyPath.t) (n : node)
  : list (PyPath.t * list (string * node)) :=
  match n with
  | File _ _ => []
  | Dir entries =>
      (p, entries) ::
      (fix below (es : list (string * node)) :=
         match es with
         | [] => []
         | (k, c) :: es' => iterate_directories (p ++ [k]) c ++ below es'
         end) entries
  end.

(** [p.rglob('*')]: every entry of every directory below [p]. *)
Definition rglob (fs : t) (p : PyPath.t) : list PyPath.t :=
  match resolve fs p with
  | Some n =>
      flat_map (λ d, map (λ e, fst d ++ [fst e]) (snd d)) (iterate_directories p n)
  | None => []
  end.

End FS.

(** ** The pipeline *)

(** What the pipeline is run against: the file system as it is during the
    call, and the collaborators. *)
Record env := {
  fs : FS.t;
  (** [embedder.encode(texts).tolist()] *)
  encode : list string → outcome (list vec);
  (** [collection.query(query_embeddings=..., n_results=..., include=...)]
      on the records the collection holds *)
  nearest : list record → list vec → Z → outcome query_result;
  (** [os.makedirs(db_path, exist_ok=True)] *)
  makedirs : string → outcome unit;
  (** loading the sentence-transformer model in [get_embedder] *)
  load_embedder : outcome unit;
  (** the records of the collection "memory" that
      [PersistentClient(path=db_path)] opens or creates *)
  open_db : string → outcome (list record);
  (** [os.path.expanduser('~/.jb-recall/db')] *)
  home_db : string
}.

(** The dictionary [index_file] returns. *)
Inductive file_result :=
| Skipped (reason : string)
| Indexed (chunks : nat) (file : string).

(** [embedder.encode(texts).tolist()] *)
Definition embed (e : env) (texts : list string) : M (list vec) :=
  emit (EEncode texts) ;;;
  lift (encode e texts).

(** [collection.query(...)] *)
Definition query (e : env) (query_embeddings : list vec) (n_results : Z)
  : M query_result :=
  emit (EQuery n_results) ;;;
  s <- get_store ;;
  lift (nearest e s query_embeddings n_results).

(** The call [chunk_text(text)], with the default size 500 and overlap 50. *)
Definition chunk_call (text : string) : M (list string) :=
  emit (EChunk text) ;;;
  match Chunker.chunk_text text 500 50 with
  | Some cs => ret cs
  | None => lift Hang
  end.

(** [f"{doc_id_prefix}::{i}"] *)
Definition chunk_id (doc_id_prefix : string) (i : nat) : string :=
  doc_id_prefix +:+ "::" +:+ PyStr.of_nat i.

(** [file_hash(path)]: the digest of the bytes of the file. *)
Definition file_hash (e : env) (file_path : string) : outcome string :=
  FS.read_digest (fs e) (PyPath.of_string file_path).

Definition index_file (e : env) (file_path : string) (force : bool)
  : M file_result :=
  let p := PyPath.of_string file_path in
  if negb (FS.exists_ (fs e) p) || negb (FS.is_file (fs e) p) then
    ret (Skipped "not a file")
  else
    match FS.read_text (fs e) p with
    | Raise _ => ret (Skipped "not text")
    | Hang => lift Hang
    | Ok text =>
        current_hash <- lift (file_hash e file_path) ;;
        let abs := PyPath.to_string (PyPath.absolute (FS.cwd (fs e)) p) in
        let doc_id_prefix := abs in
        existing <- Coll.get (Some abs) ;;
        let check : M bool :=
          if bool_decide (map id existing ≠ []) && negb force then
            match map meta existing with
            | m :: _ =>
                if bool_decide (hash m = current_hash) then ret true
                else Coll.delete (map id existing) ;;; ret false
            | [] => Coll.delete (map id existing) ;;; ret false
            end
          else ret false in
        unchanged <- check ;;
        if unchanged : bool then ret (Skipped "unchanged")
        else
          chunks <- chunk_call text ;;
          match chunks with
          | [] => ret (Skipped "empty")
          | _ :: _ =>
              embeddings <- embed e chunks ;;
              let ids := map (chunk_id doc_id_prefix) (seq 0 (length chunks)) in
              let metadatas :=
                map (λ i, {| path := abs; filename := PyPath.name p;
                             chunk_idx := i; hash := current_hash |})
                    (seq 0 (length chunks)) in
              Coll.add ids embeddings chunks metadatas ;;;
              ret (Indexed (length chunks) (PyPath.to_string p))
          end
    end.

(** The dictionary [index_directory] builds. *)
Record dir_results := {
  indexed : nat;
  skipped : nat;
  files : list file_result
}.

Definition default_extensions : list string :=
  [".md"; ".txt"; ".py"; ".go"; ".js"; ".ts"; ".json"; ".yaml"; ".yml"].

(** [path.is_file() and path.suffix.lower() in extensions] *)
Definition wanted (e : env) (extensions : list string) (p : PyPath.t) : bool :=
  FS.is_file (fs e) p && bool_decide (PyStr.lower (PyPath.suffix p) ∈ extensions).

(** [any(part.startswith('.') for part in path.parts)] *)
Definition hidden (p : PyPath.t) : bool :=
  existsb (λ part, PyStr.startswith part ".") p.

(** ['node_modules' in path.parts or '__pycache__' in path.parts] *)
Definition ignored (p : PyPath.t) : bool :=
  bool_decide ("node_modules" ∈ p) || bool_decide ("__pycache__" ∈ p).

(** The paths of the scan that reach [index_file]. *)
Definition candidate (e : env) (extensions : list string) (p : PyPath.t) : bool :=
  wanted e extensions p && negb (hidden p) && negb (ignored p).

Definition tally (results : dir_results) (result : file_result) : dir_results :=
  match result with
  | Indexed _ _ =>
      {| indexed := indexed results + 1; skipped := skipped results;
         files := files results ++ [result] |}
  | Skipped _ =>
      {| indexed := indexed results; skipped := skipped results + 1;
         files := files results ++ [result] |}
  end%nat.

(** The [for] loop of [index_directory] over the paths [rglob] yields. *)
Fixpoint scan (e : env) (extensions : list string) (force : bool)
  (paths : list PyPath.t) (results : dir_results) : M dir_results :=
  match paths with
  | [] => ret results
  | p :: rest =>
      if wanted e extensions p then
        if hidden p then scan e extensions force rest results
        else if ignored p then scan e extensions force rest results
        else
          result <- index_file e (PyPath.to_string p) force ;;
          scan e extensions force rest (tally results result)
      else scan e extensions force rest results
  end.

Definition index_directory (e : env) (dir_path : string)
  (extensions : option (list string)) (force : bool) : M dir_results :=
  let extensions := default default_extensions extensions in
  let results := {| indexed := 0; skipped := 0; files := [] |} in
  let dir_path := PyPath.of_string dir_path in
  scan e extensions force (FS.rglob (fs e) dir_path) results.

(** One formatted search result. *)
Record hit := {
  h_id : string;
  h_score : float;
  h_text : string;
  h_path : string;
  h_filename : string;
  h_chunk_idx : nat
}.

(** [l[0][i]], raising [IndexError] out of range. *)
Definition item {A} (l : list (list A)) (i : nat) : M A :=
  match l !! 0%nat with
  | Some l0 =>
      match l0 !! i with
      | Some x => ret x
      | None => lift (Raise IndexError)
      end
  | None => lift (Raise IndexError)
  end.

(** The dictionary appended for index [i]. *)
Definition format_hit (results : query_result) (i : nat) : M hit :=
  the_id <- item (q_ids results) i ;;
  d <- item (q_distances results) i ;;
  doc <- item (q_documents results) i ;;
  m <- item (q_metadatas results) i ;;
  ret {| h_id := the_id; h_score := PrimFloat.sub 1%float d; h_text := doc;
         h_path := path m; h_filename := filename m;
         h_chunk_idx := chunk_idx m |}.

(** The [for i in range(...)] loop that fills [formatted]. *)
Fixpoint format_loop (results : query_result) (range : list nat)
  (formatted : list hit) : M (list hit) :=
  match range with
  | [] => ret formatted
  | i :: range' =>
      h <- format_hit results i ;;
      format_loop results range' (formatted ++ [h])
  end.

Definition search (e : env) (query_text : string) (limit : Z) : M (list hit) :=
  query_embedding <- embed e [query_text] ;;
  results <- query e query_embedding limit ;;
  match q_ids results with
  | (_ :: _) as ids0 :: _ =>
      format_loop results (seq 0 (length ids0)) []
  | _ => ret []
  end.

(** ** The command surface: [handle_command] *)

(** The request dictionary, by key; [None] is a missing key. *)
Record command := {
  cmd : option string;
  c_path : option string;
  c_force : option bool;
  c_extensions : option (list string);
  c_query : option string;
  c_limit : option Z;
  c_db_path : option string
}.

(** The dictionary [handle_command] returns. *)
Inductive response :=
| RInit (db_path : string) (count : nat)
| RFile (result : file_result)
| RDirectory (results : dir_results)
| RResults (results : list hit)
| RCount (count : nat)
| ROk
| RBye
| RError (error : string).

(** The globals of the module: the collection handle (with the records
    behind it) and whether the embedder is loaded; and the calls made. *)
Record process := {
  _collection : option (list record);
  _embedder : bool;
  calls : list event
}.

(** A pipeline call on the collection [c] behind the handle. *)
Definition on_collection {A} (c : list record) (p : process) (m : M A)
  : outcome A * process :=
  let '(o, w) := m {| store := c; trace := calls p |} in
  (o, {| _collection := Some (store w); _embedder := _embedder p;
         calls := trace w |}).

(** [cmd[key]], raising [KeyError] when the key is missing. *)
Definition required {A} (key : string) (v : option A) : outcome A :=
  match v with
  | Some a => Ok a
  | None => Raise (KeyError key)
  end.

Definition not_initialized : response := RError "not initialized".

(** The [init] branch. *)
Definition handle_init (e : env) (c : command) (p : process)
  : outcome response * process :=
  let db_path := default (home_db e) (c_db_path c) in
  match makedirs e db_path with
  | Raise x => (Raise x, p)
  | Hang => (Hang, p)
  | Ok _ =>
      let loaded : outcome unit :=
        if _embedder p then Ok tt else load_embedder e in
      match loaded with
      | Raise x => (Raise x, p)
      | Hang => (Hang, p)
      | Ok _ =>
          let opened : outcome (list record) :=
            match _collection p with
            | Some s => Ok s
            | None => open_db e db_path
            end in
          match opened with
          | Raise x =>
              (Raise x, {| _collection := _collection p; _embedder := true;
                           calls := calls p |})
          | Hang =>
              (Hang, {| _collection := _collection p; _embedder := true;
                        calls := calls p |})
          | Ok s =>
              let p' := {| _collection := Some s; _embedder := true;
                           calls := calls p |} in
              match on_collection s p' Coll.count with
              | (Ok stats, p'') => (Ok (RInit db_path stats), p'')
              | (Raise x, p'') => (Raise x, p'')
              | (Hang, p'') => (Hang, p'')
              end
          end
      end
  end.

(** A branch that needs its arguments from the request and then runs the
    pipeline on the collection. *)
Definition run {A B} (c : list record) (p : process) (arg : outcome A)
  (m : A → M B) (wrap : B → response) : outcome response * process :=
  match arg with
  | Raise x => (Raise x, p)
  | Hang => (Hang, p)
  | Ok a =>
      match on_collection c p (m a) with
      | (Ok b, p') => (Ok (wrap b), p')
      | (Raise x, p') => (Raise x, p')
      | (Hang, p') => (Hang, p')
      end
  end.

Definition handle_command (e : env) (c : command) (p : process)
  : outcome response * process :=
  let action := default EmptyString (cmd c) in
  if bool_decide (action = "init") then handle_init e c p
  else if bool_decide (action = "index_file") then
    match _collection p with
    | None => (Ok not_initialized, p)
    | Some s =>
        run s p (required "path" (c_path c))
          (λ file_path, index_file e file_path (default false (c_force c)))
          RFile
    end
  else if bool_decide (action = "index_dir") then
    match _collection p with
    | None => (Ok not_initialized, p)
    | Some s =>
        run s p (required "path" (c_path c))
          (λ dir_path, index_directory e dir_path (c_extensions c)
                         (default false (c_force c)))
          RDirectory
    end
  else if bool_decide (action = "search") then
    match _collection p with
    | None => (Ok not_initialized, p)
    | Some s =>
        run s p (required "query" (c_query c))
          (λ q, search e q (default 5 (c_limit c)))
          RResults
    end
  else if bool_decide (action = "stats") then
    match _collection p with
    | None => (Ok not_initialized, p)
    | Some s => run s p (Ok tt) (λ _, Coll.count) RCount
    end
  else if bool_decide (action = "clear") then
    match _collection p with
    | Some s =>
        run s p (Ok tt)
          (λ _, all <- Coll.get None ;;
                let all_ids := map id all in
                match all_ids with
                | [] => ret tt
                | _ :: _ => Coll.delete all_ids
                end)
          (λ _, ROk)
    | None => (Ok ROk, p)
    end
  else if bool_decide (action = "quit") then (Ok RBye, p)
  else (Ok (RError ("unknown command: " +:+ action)), p).

(** ** Invariants of the collection *)

Module Inv.

(** The id of a record is the one [index_file] gives to the chunk its
    metadata names. *)
Definition own_id (r : record) : Prop :=
  id r = chunk_id (path (meta r)) (chunk_idx (meta r)).

(** The collection holds no id twice, and only records of [index_file]. *)
Definition wf_store (s : list record) : Prop :=
  NoDup (map id s) ∧ Forall own_id s.

(** All records of one path carry one hash. *)
Definition hash_consistent (s : list record) : Prop :=
  ∀ r1 r2, r1 ∈ s → r2 ∈ s →
    path (meta r1) = path (meta r2) → hash (meta r1) = hash (meta r2).

(** The records of the path [p], as [get(where={"path": p})] returns them. *)
Definition records_of (p : string) (s : list record) : list record :=
  Coll.select (Some p) s.

(** The records [index_file] hands to [add] for the chunks of a file. *)
Definition new_records (abs name h : string) (chunks : list string)
  (embeddings : list vec) : list record :=
  Coll.zip_records
    (map (chunk_id abs) (seq 0 (length chunks)))
    embeddings chunks
    (map (λ i, {| path := abs; filename := name; chunk_idx := i; hash := h |})
         (seq 0 (length chunks))).

End Inv.

(** ** The search results as the specification words them *)

Module SearchSpec.

(** One result per returned row, in the order of the rows: the id, the
    score [1 - d] for the distance [d], the text, and the path, file name
    and chunk index of the metadata. *)
Fixpoint rows_to_hits (ids : list string) (distances : list float)
  (documents : list string) (metadatas : list metadata) : list hit :=
  match ids, distances, documents, metadatas with
  | i :: ids', d :: distances', doc :: documents', m :: metadatas' =>
      {| h_id := i; h_score := PrimFloat.sub 1%float d; h_text := doc;
         h_path := path m; h_filename := filename m;
         h_chunk_idx := chunk_idx m |}
      :: rows_to_hits ids' distances' documents' metadatas'
  | _, _, _, _ => []
  end.

End SearchSpec.

(** ** Concrete scenarios *)

Module Scenario.

(** A text of 1000 letters. *)
Definition letters_1000 : string := PyStr.repeat_char "x" 1000.

(** An embedder that answers every text with the same one-dimensional
    vector. *)
Definition flat_encode (texts : list string) : outcome (list vec) :=
  Ok (map (λ _, [0%float]) texts).

(** The answer of an empty collection. *)
Definition empty_answer : query_result :=
  {| q_ids := [[]]; q_distances := [[]]; q_documents := [[]];
     q_metadatas := [[]] |}.

(** A file system with the one directory [/w], which is also the working
    directory. *)
Definition workspace (entries : list (string * FS.node)) : FS.t :=
  {| FS.cwd := ["/"; "w"]; FS.root := FS.Dir [("w", FS.Dir entries)] |}.

Definition env_of (entries : list (string * FS.node))
  (enc : list string → outcome (list vec)) : env :=
  {| fs := workspace entries;
     encode := enc;
     nearest := λ _ _ _, Ok empty_answer;
     makedirs := λ _, Ok tt;
     load_embedder := Ok tt;
     open_db := λ _, Ok [];
     home_db := "/home/u/.jb-recall/db" |}.

(** A readable text file. *)
Definition text_file (text digest : string) : FS.node :=
  FS.File (Ok text) (Ok digest).

(** An empty collection, before any call. *)
Definition fresh : world := {| store := []; trace := [] |}.

Definition is_delete (ev : event) : bool :=
  match ev with EDelete _ => true | _ => false end.

(** [/w/notes.txt] with 600 letters, which make two chunks. *)
Definition notes_long : env :=
  env_of [("notes.txt", text_file (PyStr.repeat_char "a" 600) "md5-long")]
    flat_encode.

(** [/w/notes.txt] with one word, which makes one chunk. *)
Definition notes_short : env :=
  env_of [("notes.txt", text_file "short" "md5-short")] flat_encode.

(** The world after [index_file] on [/w/notes.txt]. *)
Definition after (e : env) (force : bool) (w : world) : world :=
  snd (index_file e "/w/notes.txt" force w).

(** [/w/notes.txt] is a regular file, and reading it fails. *)
Definition notes_unreadable : env :=
  env_of [("notes.txt", FS.File (Raise OSError) (Raise OSError))] flat_encode.

(** [/w/notes.txt] is read as text, and is gone when [file_hash] opens it. *)
Definition notes_vanishing : env :=
  env_of [("notes.txt", FS.File (Ok "short") (Raise OSError))] flat_encode.

(** An embedder that fails on the text "boom", and only on it. *)
Definition touchy_encode (texts : list string) : outcome (list vec) :=
  if bool_decide ("boom" ∈ texts) then Raise (RuntimeError "encode failed")
  else flat_encode texts.


(** The three files of the traversal example: [a.py], [.hidden/b.py] and
    [node_modules/c.js]. *)
Definition three_files : list (string * FS.node) :=
  [("a.py", text_file "a = 1" "md5-a");
   (".hidden", FS.Dir [("b.py", text_file "b = 2" "md5-b")]);
   ("node_modules", FS.Dir [("c.js", text_file "c = 3" "md5-c")])].

(** The three files under [/srv/node_modules/pkg]. *)
Definition inside_node_modules : env :=
  {| fs := {| FS.cwd := ["/"];
              FS.root :=
                FS.Dir [("srv",
                   FS.Dir [("node_modules",
                      FS.Dir [("pkg", FS.Dir three_files)])])] |};
     encode := flat_encode;
     nearest := λ _ _ _, Ok empty_answer;
     makedirs := λ _, Ok tt;
     load_embedder := Ok tt;
     open_db := λ _, Ok [];
     home_db := "/home/u/.jb-recall/db" |}.

(** A collection that answers every query with the same two rows. *)
Definition two_rows : query_result :=
  {| q_ids := [["/w/a.py::0"; "/w/b.py::3"]];
     q_distances := [[0.25%float; 0.5%float]];
     q_documents := [["a = 1"; "b = 2"]];
     q_metadatas :=
       [[{| path := "/w/a.py"; filename := "a.py"; chunk_idx := 0;
            hash := "md5-a" |};
         {| path := "/w/b.py"; filename := "b.py"; chunk_idx := 3;
            hash := "md5-b" |}]] |}.

Definition answering (answer : query_result) : env :=
  {| fs := workspace [];
     encode := flat_encode;
     nearest := λ _ _ _, Ok answer;
     makedirs := λ _, Ok tt;
     load_embedder := Ok tt;
     open_db := λ _, Ok [];
     home_db := "/home/u/.jb-recall/db" |}.

(** The process before [init]. *)
Definition uninitialized : process :=
  {| _collection := None; _embedder := false; calls := [] |}.

(** A request with the key [cmd] only. *)
Definition request (action : string) : command :=
  {| cmd := Some action; c_path := None; c_force := None;
     c_extensions := None; c_query := None; c_limit := None;
     c_db_path := None |}.

End Scenario.

(** ** The transport loop: [main] *)

Module Transport.

(** What [queue.get(block=True, timeout=1)] comes to. *)
Inductive incoming :=
| GetTimeout
| GetEOF
| GetFailure
| GetValue (v : option command).

(** What [main] puts on the queue: the ready signal, or a reply. *)
Inductive message :=
| Ready
| Reply (r : response).

(** Where the loop is when the events run out: waiting in [queue.get],
    left by [break], or inside a [handle_command] that does not return. *)
Inductive loop_end :=
| Waiting
| Broke
| Stuck.

Record run := {
  sent : list message;
  proc : process;
  ended : loop_end
}.

(** The [while True] loop over the events of the queue. [str] is [str(e)],
    the text of an exception. *)
Fixpoint serve (str : exn → string) (e : env) (events : list incoming)
  (p : process) (out : list message) : run :=
  match events with
  | [] => {| sent := out; proc := p; ended := Waiting |}
  | GetTimeout :: rest => serve str e rest p out
  | GetEOF :: _ => {| sent := out; proc := p; ended := Broke |}
  | GetFailure :: rest => serve str e rest p out
  | GetValue None :: rest => serve str e rest p out
  | GetValue (Some c) :: rest =>
      match handle_command e c p with
      | (Ok result, p') =>
          if bool_decide (cmd c = Some "quit")
          then {| sent := out ++ [Reply result]; proc := p'; ended := Broke |}
          else serve str e rest p' (out ++ [Reply result])
      | (Raise x, p') =>
          serve str e rest p' (out ++ [Reply (RError (str x))])
      | (Hang, p') => {| sent := out; proc := p'; ended := Stuck |}
      end
  end.

(** The globals when the module is loaded. *)
Definition boot : process :=
  {| _collection := None; _embedder := false; calls := [] |}.

Definition main (str : exn → string) (e : env) (events : list incoming) : run :=
  serve str e events boot [Ready].

(** The requests the loop gets to: those before the first end of file, up
    to the first [quit]. *)
Fixpoint reached (events : list incoming) : list command :=
  match events with
  | [] => []
  | GetEOF :: _ => []
  | GetValue (Some c) :: rest =>
      if bool_decide (cmd c = Some "quit") then [c] else c :: reached rest
  | _ :: rest => reached rest
  end.

(** What the loop puts on the queue for an outcome of [handle_command]:
    the result, or the error dictionary with the text of the exception.
    Nothing is put for a call that does not return. *)
Definition reply_of (str : exn → string) (o : outcome response)
  : option response :=
  match o with
  | Ok result => Some result
  | Raise x => Some (RError (str x))
  | Hang => None
  end.

(** The replies owed to the requests [cs], handled one after the other from
    the process [p], each on the process the one before it left. *)
Fixpoint answers (str : exn → string) (e : env) (cs : list command)
  (p : process) : list response :=
  match cs with
  | [] => []
  | c :: cs' =>
      match reply_of str (fst (handle_command e c p)) with
      | Some r => r :: answers str e cs' (snd (handle_command e c p))
      | None => []
      end
  end.

(** The text of an exception, for the scenarios. *)
Definition exn_text (x : exn) : string :=
  match x with
  | KeyError key => "'" +:+ key +:+ "'"
  | RuntimeError msg => msg
  | _ => "error"
  end.

End Transport.

(** ** The shape of a path *)

Module PathShape.

(** A segment of a path: not empty, not ".", and without a slash. *)
Definition segment (s : string) : Prop :=
  s ≠ EmptyString ∧ s ≠ "." ∧ "/"%char ∉ list_ascii_of_string s.

(** What [Path(...)] builds: segments, after a root or without one. *)
Definition built (p : PyPath.t) : Prop :=
  Forall segment p
  ∨ ∃ r segs, p = r :: segs ∧ PyPath.is_root r = true ∧ Forall segment segs.

End PathShape.

(** ** More scenarios *)

Module Scenes.

(** The collection after [/w/notes.txt] is indexed, behind the handle. *)
Definition serving : process :=
  {| _collection := Some (store (Scenario.after Scenario.notes_short false
                                   Scenario.fresh));
     _embedder := true; calls := [] |}.

(** A request to index a file. *)
Definition index_request (file_path : option string) : command :=
  {| cmd := Some "index_file"; c_path := file_path; c_force := None;
     c_extensions := None; c_query := None; c_limit := None;
     c_db_path := None |}.

(** A request to initialise under [db_path]. *)
Definition init_request (db_path : string) : command :=
  {| cmd := Some "init"; c_path := None; c_force := None;
     c_extensions := None; c_query := None; c_limit := None;
     c_db_path := Some db_path |}.

(** 900 letters, then 100 spaces. *)
Definition letters_then_spaces : string :=
  PyStr.repeat_char "a" 900 +:+ PyStr.repeat_char " " 100.

(** An environment whose database cannot be opened. *)
Definition no_database : env :=
  {| fs := Scenario.workspace []; encode := Scenario.flat_encode;
     nearest := λ _ _ _, Ok Scenario.empty_answer; makedirs := λ _, Ok tt;
     load_embedder := Ok tt; open_db := λ _, Raise OSError;
     home_db := "/home/u/.jb-recall/db" |}.

End Scenes.

(** * Properties *)

(** ** Strings *)

Module PyStrFacts.
Import PyStr.

Lemma truthy_true (s : string) : truthy s = true ↔ s ≠ EmptyString.
Proof. destruct s; simpl; split; congruence. Qed.

Lemma rstrip_ink (s : string) : truthy (rstrip s) = has_ink s.
Proof.
  induction s as [|c s IH]; simpl; [done|].
  destruct (rstrip s) eqn:E; simpl in *.
  - rewrite <- IH. destruct (isspace c); reflexivity.
  - rewrite <- IH. destruct (isspace c); reflexivity.
Qed.

Lemma lstrip_ink (s : string) : has_ink (lstrip s) = has_ink s.
Proof.
  induction s as [|c s IH]; simpl; [done|].
  destruct (isspace c) eqn:E; simpl; [done|]. by rewrite E.
Qed.

(** A string is true after [strip] iff one of its characters is not
    whitespace. *)
Lemma strip_ink (s : string) : truthy (strip s) = has_ink s.
Proof. unfold strip. by rewrite rstrip_ink, lstrip_ink. Qed.

Lemma substring_all (s : string) : String.substring 0 (String.length s) s = s.
Proof. induction s as [|c s IH]; simpl; [done|]. by rewrite IH. Qed.

(** [s[0:b]] is [s] itself once [b] reaches its length. *)
Lemma slice_all (s : string) (b : Z) : len s ≤ b → slice s 0 b = s.
Proof.
  intros Hb. unfold slice, clamp_index, len in *.
  change (0 <? 0) with false. cbv iota.
  rewrite Z.min_l by lia.
  destruct (b <? 0) eqn:E; [apply Z.ltb_lt in E; lia|].
  rewrite Z.min_r by lia. rewrite Z.sub_0_r, Nat2Z.id. apply substring_all.
Qed.

End PyStrFacts.

(** ** The chunker *)

Module ChunkerFacts.
Import PyStr Chunker PyStrFacts.

(** More fuel does not change a result. *)
Lemma loop_mono (text : string) (size overlap : Z) (n m : nat) :
  ∀ st r, (n ≤ m)%nat →
    loop n text size overlap st = Some r → loop m text size overlap st = Some r.
Proof.
  revert m. induction n as [|n IH]; intros m st r Hle H.
  - simpl in H. destruct m; simpl; destruct (loop_cond text st); congruence.
  - destruct m as [|m]; [lia|]. simpl in *.
    destruct (loop_cond text st); [|done]. apply IH; [lia|done].
Qed.

(** The loop runs out of any fuel when the condition holds after every
    number of turns. *)
Lemma loop_None (text : string) (size overlap : Z) (fuel : nat) :
  ∀ st, (∀ k, loop_cond text (turns k text size overlap st) = true) →
    loop fuel text size overlap st = None.
Proof.
  induction fuel as [|fuel IH]; intros st H;
    pose proof (H 0%nat) as H0; simpl in H0; simpl; rewrite H0; [done|].
  apply IH. intros k. apply (H (S k)).
Qed.

(** With [size <= overlap] the start position never moves forward. *)
Lemma turns_start_le (text : string) (size overlap : Z) (k : nat) :
  size ≤ overlap → ∀ st, start (turns k text size overlap st) ≤ start st.
Proof.
  intros Hso. induction k as [|k IH]; intros st; simpl; [lia|].
  etrans; [apply IH|]. simpl. lia.
Qed.

Section Windows.
Variables (text : string) (size overlap : Z).
Hypothesis Hstep : overlap < size.

Let window (s : Z) : string := slice text s (s + size).

Lemma starts_beyond (k m : nat) :
  len text ≤ Z.of_nat k * (size - overlap) →
  filter (λ s, s < len text)
    (map (λ k, Z.of_nat k * (size - overlap)) (seq k m)) = [].
Proof.
  revert k. induction m as [|m IH]; intros k Hk; simpl; [done|].
  rewrite filter_cons_False by (simpl; lia). apply IH. rewrite Nat2Z.inj_succ. nia.
Qed.

(** From the [k]-th start on, the loop appends the windows that are left,
    in order, keeping those that are not blank. *)
Lemma loop_from (m : nat) : ∀ (k fuel : nat) (acc : list string),
  (m ≤ fuel)%nat → (k + m = String.length text)%nat →
  chunks <$> loop fuel text size overlap
               {| start := Z.of_nat k * (size - overlap); chunks := acc |}
  = Some (acc ++ filter (λ w, strip w ≠ EmptyString)
                   (map window
                      (filter (λ s, s < len text)
                         (map (λ k, Z.of_nat k * (size - overlap)) (seq k m))))).
Proof.
  induction m as [|m IH]; intros k fuel acc Hfuel Hk.
  - assert (loop_cond text {| start := Z.of_nat k * (size - overlap);
                              chunks := acc |} = false) as Hc.
    { unfold loop_cond, len. simpl. apply Z.ltb_ge. nia. }
    destruct fuel; simpl; rewrite Hc; simpl; by rewrite app_nil_r.
  - destruct (loop_cond text {| start := Z.of_nat k * (size - overlap);
                                chunks := acc |}) eqn:Hc.
    + destruct fuel as [|fuel]; [lia|]. simpl. rewrite Hc.
      unfold loop_cond in Hc. simpl in Hc. apply Z.ltb_lt in Hc.
      unfold loop_body. simpl start. simpl chunks.
      replace (Z.of_nat k * (size - overlap) + size - overlap)
        with (Z.of_nat (S k) * (size - overlap)) by lia.
      rewrite IH by lia.
      rewrite filter_cons_True by done. simpl map.
      fold (window (Z.of_nat k * (size - overlap))).
      destruct (truthy (strip (window (Z.of_nat k * (size - overlap))))) eqn:Ht.
      * rewrite filter_cons_True by (by apply truthy_true).
        by rewrite <- app_assoc.
      * rewrite filter_cons_False; [done|].
        intros Hne. apply truthy_true in Hne. congruence.
    + unfold loop_cond in Hc. simpl in Hc. apply Z.ltb_ge in Hc.
      rewrite starts_beyond by done. simpl. rewrite app_nil_r.
      destruct fuel; simpl; unfold loop_cond; simpl;
        (destruct (Z.ltb_spec (Z.of_nat k * (size - overlap)) (len text));
         [lia|done]).
Qed.

(** With [overlap < size] the loop ends within one turn per character,
    and its chunks are those of the specification. *)
Lemma chunk_text_fuel_spec (fuel : nat) :
  (String.length text ≤ fuel)%nat →
  chunk_text_fuel fuel text size overlap = Some (spec_chunk text size overlap).
Proof.
  intros Hfuel. unfold chunk_text_fuel.
  pose proof (loop_from (String.length text) 0 fuel [] Hfuel eq_refl) as H.
  unfold spec_chunk, spec_windows, spec_starts.
  replace (Z.to_nat (len text)) with (String.length text)
    by (unfold len; by rewrite Nat2Z.id).
  exact H.
Qed.
End Windows.

(** With [size <= overlap] and a text that is not empty, the condition of
    the loop holds after any number of turns. *)
Lemma stuck_forever (text : string) (size overlap : Z) (k : nat) :
  size ≤ overlap → text ≠ EmptyString →
  loop_cond text (turns k text size overlap {| start := 0; chunks := [] |}) = true.
Proof.
  intros Hso Hne. unfold loop_cond. apply Z.ltb_lt.
  pose proof (turns_start_le text size overlap k Hso {| start := 0; chunks := [] |}).
  simpl in *. unfold len. destruct text; [done|]. simpl. lia.
Qed.

Lemma chunk_text_fuel_stuck (text : string) (size overlap : Z) (fuel : nat) :
  size ≤ overlap → text ≠ EmptyString →
  chunk_text_fuel fuel text size overlap = None.
Proof.
  intros Hso Hne. unfold chunk_text_fuel. rewrite loop_None; [done|].
  intros k. by apply stuck_forever.
Qed.

Lemma chunk_text_empty (size overlap : Z) (fuel : nat) :
  chunk_text_fuel fuel EmptyString size overlap = Some [].
Proof. destruct fuel; reflexivity. Qed.

(** [chunk_text] is [None] exactly when the loop never ends. *)
Lemma chunk_text_None_iff (text : string) (size overlap : Z) :
  chunk_text text size overlap = None ↔ text ≠ EmptyString ∧ size ≤ overlap.
Proof.
  split.
  - intros H. destruct (decide (text = EmptyString)) as [->|Hne].
    { unfold chunk_text in H. by rewrite chunk_text_empty in H. }
    split; [done|]. destruct (Z.le_gt_cases size overlap) as [|Hlt]; [done|].
    unfold chunk_text in H. rewrite chunk_text_fuel_spec in H by (done || lia).
    done.
  - intros [Hne Hso]. by apply chunk_text_fuel_stuck.
Qed.

(** The default parameters of [chunk_text] always give a result. *)
Lemma chunk_text_default (text : string) :
  chunk_text text 500 50 = Some (spec_chunk text 500 50).
Proof. apply chunk_text_fuel_spec; [lia|done]. Qed.

End ChunkerFacts.

Module ChunkerClaims.
Import PyStr Chunker PyStrFacts ChunkerFacts.

Lemma has_ink_substring (s : string) : ∀ n m : nat,
  all_ink s = true → (n < String.length s)%nat → (0 < m)%nat →
  has_ink (String.substring n m s) = true.
Proof.
  induction s as [|c s IH]; intros n m Hall Hn Hm; simpl in *; [lia|].
  apply andb_true_iff in Hall as [Hc Hall].
  destruct n as [|n].
  - destruct m as [|m]; [lia|]. simpl. by rewrite Hc.
  - apply IH; [done|lia|done].
Qed.

(** A window that starts inside a text without whitespace and is not empty
    survives the trimming. *)
Lemma window_kept (text : string) (a b : Z) :
  all_ink text = true → 0 ≤ a < len text → a < b →
  strip (slice text a b) ≠ EmptyString.
Proof.
  intros Hall Ha Hb. apply truthy_true. rewrite strip_ink.
  unfold slice, clamp_index.
  destruct (Z.ltb_spec a 0); [lia|]. destruct (Z.ltb_spec b 0); [lia|].
  apply has_ink_substring; [done|unfold len in *; lia|lia].
Qed.

Lemma starts_1000 : spec_starts 1000 450 = [0; 450; 900].
Proof. vm_compute. reflexivity. Qed.

Lemma starts_10 : spec_starts 10 450 = [0].
Proof. vm_compute. reflexivity. Qed.

(** The three windows of a text of 1000 characters, of which the blank
    ones are dropped. *)
Lemma chunk_text_1000 (text : string) :
  String.length text = 1000%nat →
  chunk_text text 500 50
  = Some (filter (λ w, strip w ≠ EmptyString)
            [slice text 0 500; slice text 450 950; slice text 900 1400]).
Proof.
  intros Hlen. rewrite chunk_text_default. unfold spec_chunk, spec_windows.
  assert (len text = 1000) as Hl by (unfold len; by rewrite Hlen).
  rewrite Hl. change (500 - 50) with 450. by rewrite starts_1000.
Qed.

(** A text of 1000 characters without whitespace gives three chunks. *)
Lemma chunk_text_1000_all_ink (text : string) :
  String.length text = 1000%nat → all_ink text = true →
  chunk_text text 500 50
  = Some [slice text 0 500; slice text 450 950; slice text 900 1400].
Proof.
  intros Hlen Hall. rewrite chunk_text_1000 by done.
  assert (len text = 1000) as Hl by (unfold len; by rewrite Hlen).
  rewrite !filter_cons_True, filter_nil;
    [done|apply window_kept; (done || lia)..].
Qed.

(** C7, as the code has it. With [overlap < size], [chunk_text] returns
    exactly the windows [text[start : start+size]] for start = 0,
    size-overlap, 2*(size-overlap), ... below the length of the text,
    keeping a window iff it is not empty after trimming. In particular, with
    size 500 and overlap 50, a text of 1000 characters gives those of the
    three windows that start at 0, 450 and 900 which are not blank, all
    three when none of them is blank; and a non-blank text of length 10
    gives the one chunk that is the text itself. *)
Theorem chunk_text_windows (text : string) (size overlap : Z) :
  overlap < size →
  chunk_text text size overlap = Some (spec_chunk text size overlap)
  ∧ (size = 500 → overlap = 50 → String.length text = 1000%nat →
     chunk_text text size overlap
     = Some (filter (λ w, strip w ≠ EmptyString)
               [slice text 0 500; slice text 450 950; slice text 900 1400])
     ∧ (strip (slice text 0 500) ≠ EmptyString →
        strip (slice text 450 950) ≠ EmptyString →
        strip (slice text 900 1400) ≠ EmptyString →
        chunk_text text size overlap
        = Some [slice text 0 500; slice text 450 950; slice text 900 1400]))
  ∧ (size = 500 → overlap = 50 →
     String.length text = 10%nat → strip text ≠ EmptyString →
     chunk_text text size overlap = Some [text]).
Proof.
  intros Hlt. split; [by apply chunk_text_fuel_spec|]. split.
  - intros -> -> Hlen. split; [by apply chunk_text_1000|].
    intros H0 H1 H2. rewrite chunk_text_1000 by done.
    by rewrite !filter_cons_True, filter_nil.
  - intros -> -> Hlen Hne. rewrite chunk_text_default.
    unfold spec_chunk, spec_windows.
    assert (len text = 10) as Hl by (unfold len; by rewrite Hlen).
    rewrite Hl. change (500 - 50) with 450. rewrite starts_10. simpl map.
    rewrite slice_all by lia. by rewrite filter_cons_True, filter_nil.
Qed.

Lemma chunk_text_windows_witness :
  50 < 500
  ∧ chunk_text Scenario.letters_1000 500 50
    = Some [repeat_char "x" 500; repeat_char "x" 500; repeat_char "x" 100].
Proof.
  split; [lia|].
  destruct (chunk_text_windows Scenario.letters_1000 500 50) as (_ & H & _);
    [lia|].
  destruct (H eq_refl eq_refl eq_refl) as [_ H3].
  rewrite H3; [vm_compute; reflexivity|..];
    intros Hb; vm_compute in Hb; discriminate.
Defined.

(** C7 fails as stated: 900 letters followed by 100 spaces are a non-blank
    text of 1000 characters, and give two chunks; the window that starts at
    900 is blank and is dropped. *)
Lemma chunk_text_blank_window :
  String.length Scenes.letters_then_spaces = 1000%nat
  ∧ strip Scenes.letters_then_spaces ≠ EmptyString
  ∧ chunk_text Scenes.letters_then_spaces 500 50
    = Some [repeat_char "a" 500;
            repeat_char "a" 450 +:+ repeat_char " " 50].
Proof.
  split; [reflexivity|]. split.
  - intros H. vm_compute in H. discriminate.
  - vm_compute. reflexivity.
Qed.

(** C2, as the code has it. [chunk_text] has no check of its parameters.
    With [overlap < size] the loop ends within one turn per character of
    the text, with the chunks of the specification; so it does for the empty
    text, whatever the parameters. With [size <= overlap] and a text that is
    not empty the loop never ends: its condition holds after any number of
    turns, and no fuel gives a result. *)
Theorem chunk_text_termination (text : string) (size overlap : Z) :
  (overlap < size →
   ∀ fuel, (String.length text ≤ fuel)%nat →
     chunk_text_fuel fuel text size overlap = Some (spec_chunk text size overlap))
  ∧ (text = EmptyString → ∀ fuel, chunk_text_fuel fuel text size overlap = Some [])
  ∧ (size ≤ overlap → text ≠ EmptyString →
     (∀ k, loop_cond text
             (turns k text size overlap {| start := 0; chunks := [] |}) = true)
     ∧ (∀ fuel, chunk_text_fuel fuel text size overlap = None)).
Proof.
  split; [|split].
  - intros Hlt fuel Hfuel. by apply chunk_text_fuel_spec.
  - intros -> fuel. apply chunk_text_empty.
  - intros Hso Hne. split.
    + intros k. by apply stuck_forever.
    + intros fuel. by apply chunk_text_fuel_stuck.
Qed.

Lemma chunk_text_termination_witness :
  chunk_text_fuel 11 "hello world" 5 2 = Some ["hello"; "lo wo"; "world"; "ld"]
  ∧ chunk_text_fuel 0 "" 5 5 = Some []
  ∧ chunk_text_fuel 1000 "hello world" 5 5 = None.
Proof.
  pose proof (chunk_text_termination "hello world" 5 2) as (H1 & _ & _).
  pose proof (chunk_text_termination "" 5 5) as (_ & H2 & _).
  pose proof (chunk_text_termination "hello world" 5 5) as (_ & _ & H3).
  split; [|split].
  - rewrite (H1 ltac:(lia) 11%nat) by (simpl; lia). reflexivity.
  - exact (H2 eq_refl 0%nat).
  - destruct H3 as [_ H3]; [lia|done|]. exact (H3 1000%nat).
Defined.

(** C2 fails as stated: with size 5 and overlap 5 on the text "a" the call
    neither returns nor raises; the loop keeps its start position at 0. *)
Lemma chunk_text_no_guard :
  chunk_text "a" 5 5 = None
  ∧ (∀ fuel, chunk_text_fuel fuel "a" 5 5 = None)
  ∧ (∀ k, start (turns k "a" 5 5 {| start := 0; chunks := [] |}) = 0).
Proof.
  split; [reflexivity|]. split.
  - intros fuel. by apply chunk_text_fuel_stuck.
  - intros k.
    assert (∀ st, start st = 0 → start (turns k "a" 5 5 st) = 0) as H.
    { induction k as [|k IH]; intros st Hst; simpl; [done|].
      apply IH. simpl. lia. }
    by apply H.
Qed.

End ChunkerClaims.

(** ** Chunk ids *)

Module IdFacts.

Lemma list_ascii_app (a b : string) :
  list_ascii_of_string (a +:+ b) = list_ascii_of_string a ++ list_ascii_of_string b.
Proof. induction a as [|c a IH]; simpl; [done|]. by rewrite IH. Qed.

Lemma list_ascii_inj (a b : string) :
  list_ascii_of_string a = list_ascii_of_string b → a = b.
Proof.
  intros H. rewrite <- (string_of_list_ascii_of_string a).
  rewrite <- (string_of_list_ascii_of_string b). by rewrite H.
Qed.

(** The decimal digits of a number hold no colon. *)
Lemma digits_no_colon (u : Decimal.uint) :
  ":"%char ∉ list_ascii_of_string (NilEmpty.string_of_uint u).
Proof.
  induction u; simpl; [apply not_elem_of_nil|..];
    (apply not_elem_of_cons; split; [discriminate|done]).
Qed.

(** Two lists that agree up to the first occurrence of [c] in each. *)
Lemma split_at_first {A} (c : A) (a1 a2 r1 r2 : list A) :
  c ∉ a1 → c ∉ a2 → a1 ++ c :: r1 = a2 ++ c :: r2 → a1 = a2 ∧ r1 = r2.
Proof.
  revert a2. induction a1 as [|x a1 IH]; intros [|y a2] H1 H2 H; simpl in *.
  - by inversion H.
  - inversion H; subst. exfalso. apply H2. apply elem_of_cons. by left.
  - inversion H; subst. exfalso. apply H1. apply elem_of_cons. by left.
  - inversion H; subst. apply not_elem_of_cons in H1 as [_ H1].
    apply not_elem_of_cons in H2 as [_ H2].
    destruct (IH a2 H1 H2 H4) as [-> ->]. done.
Qed.

(** The id names the path and the position of the chunk. *)
Lemma chunk_id_inj (p q : string) (i j : nat) :
  chunk_id p i = chunk_id q j → p = q ∧ i = j.
Proof.
  unfold chunk_id, PyStr.of_nat. intros H.
  apply (f_equal list_ascii_of_string) in H. rewrite !list_ascii_app in H.
  simpl in H. apply (f_equal (@rev ascii)) in H.
  rewrite !rev_app_distr in H. simpl in H. rewrite <- !app_assoc in H. simpl in H.
  apply split_at_first in H as [Hd Hp].
  - split.
    + injection Hp as Hp. apply (f_equal (@rev ascii)) in Hp.
      rewrite !rev_involutive in Hp. by apply list_ascii_inj.
    + apply (f_equal (@rev ascii)) in Hd. rewrite !rev_involutive in Hd.
      apply list_ascii_inj in Hd. apply DecimalNat.Unsigned.to_uint_inj.
      pose proof (NilEmpty.usu (Nat.to_uint i)) as Hi.
      pose proof (NilEmpty.usu (Nat.to_uint j)) as Hj.
      rewrite Hd in Hi. congruence.
  - rewrite list_elem_of_In, <- in_rev, <- list_elem_of_In. apply digits_no_colon.
  - rewrite list_elem_of_In, <- in_rev, <- list_elem_of_In. apply digits_no_colon.
Qed.

End IdFacts.

(** ** The collection *)

Module CollFacts.
Import Inv IdFacts.

Lemma elem_of_map {A B} (f : A → B) (l : list A) (y : B) :
  y ∈ map f l ↔ ∃ x, y = f x ∧ x ∈ l.
Proof. apply (list_elem_of_fmap f). Qed.

Lemma elem_of_select (p : string) (s : list record) (r : record) :
  r ∈ Coll.select (Some p) s ↔ path (meta r) = p ∧ r ∈ s.
Proof. unfold Coll.select. by rewrite list_elem_of_filter. Qed.

Lemma elem_of_remove (ids : list string) (s : list record) (r : record) :
  r ∈ Coll.remove ids s ↔ (id r ∉ ids) ∧ r ∈ s.
Proof. unfold Coll.remove. by rewrite list_elem_of_filter. Qed.

Lemma remove_nil (s : list record) : Coll.remove [] s = s.
Proof.
  unfold Coll.remove. induction s as [|r s IH]; [done|].
  rewrite filter_cons_True by apply not_elem_of_nil. by rewrite IH.
Qed.

(** After deleting the ids [get] returned for a path, no record of that
    path is left. *)
Lemma select_remove_own (p : string) (s : list record) :
  Coll.select (Some p) (Coll.remove (map id (Coll.select (Some p) s)) s) = [].
Proof.
  apply elem_of_nil_inv. intros r Hr.
  apply elem_of_select in Hr as [Hp Hr]. apply elem_of_remove in Hr as [Hid Hr].
  apply Hid. apply elem_of_map. exists r. split; [done|].
  by apply elem_of_select.
Qed.

Lemma select_app (p : string) (s1 s2 : list record) :
  Coll.select (Some p) (s1 ++ s2)
  = Coll.select (Some p) s1 ++ Coll.select (Some p) s2.
Proof. unfold Coll.select. apply filter_app. Qed.

Lemma select_all (p : string) (s : list record) :
  Forall (λ r, path (meta r) = p) s → Coll.select (Some p) s = s.
Proof.
  unfold Coll.select. induction 1 as [|r s Hr Hs IH]; [done|].
  rewrite filter_cons_True by done. by rewrite IH.
Qed.

(** [add] only appends. *)
Lemma insert_all_extends (rs s : list record) :
  ∃ added, Coll.insert_all rs s = s ++ added ∧ added ⊆ rs.
Proof.
  revert s. induction rs as [|r rs IH]; intros s; simpl.
  - exists []. by rewrite app_nil_r.
  - destruct (decide (id r ∈ map id s)).
    + destruct (IH s) as (added & -> & Hsub). exists added. split; [done|].
      by apply list_subseteq_cons.
    + destruct (IH (s ++ [r])) as (added & -> & Hsub). exists (r :: added).
      split; [by rewrite <- app_assoc|].
      intros x Hx. apply elem_of_cons in Hx as [->|Hx];
        apply elem_of_cons; [by left|right; by apply Hsub].
Qed.

(** A batch of new ids, all different, is appended whole. *)
Lemma insert_all_fresh (rs s : list record) :
  NoDup (map id rs) → (∀ r, r ∈ rs → id r ∉ map id s) →
  Coll.insert_all rs s = s ++ rs.
Proof.
  revert s. induction rs as [|r rs IH]; intros s Hnd Hfresh; simpl.
  - by rewrite app_nil_r.
  - simpl in Hnd. apply NoDup_cons in Hnd as [Hr Hnd].
    rewrite decide_False by (apply Hfresh; apply elem_of_cons; by left).
    rewrite IH; [by rewrite <- app_assoc|done|].
    intros x Hx. rewrite map_app. simpl. intros Hin.
    apply elem_of_app in Hin as [Hin|Hin].
    + revert Hin. apply Hfresh. apply elem_of_cons. by right.
    + apply list_elem_of_singleton in Hin. apply Hr. rewrite <- Hin.
      apply elem_of_map. by exists x.
Qed.

(** A batch whose ids are all in the collection leaves it as it is. *)
Lemma insert_all_present (rs s : list record) :
  (∀ r, r ∈ rs → id r ∈ map id s) → Coll.insert_all rs s = s.
Proof.
  induction rs as [|r rs IH]; intros Hin; simpl; [done|].
  rewrite decide_True by (apply Hin; apply elem_of_cons; by left).
  apply IH. intros x Hx. apply Hin. apply elem_of_cons. by right.
Qed.

Lemma insert_all_NoDup (rs s : list record) :
  NoDup (map id s) → NoDup (map id (Coll.insert_all rs s)).
Proof.
  revert s. induction rs as [|r rs IH]; intros s Hnd; simpl; [done|].
  destruct (decide (id r ∈ map id s)); [by apply IH|].
  apply IH. rewrite map_app. simpl. apply NoDup_app. split; [done|].
  split; [|apply NoDup_singleton].
  intros x Hx Hx'. apply list_elem_of_singleton in Hx'. by subst.
Qed.

Lemma remove_NoDup (ids : list string) (s : list record) :
  NoDup (map id s) → NoDup (map id (Coll.remove ids s)).
Proof.
  unfold Coll.remove. induction s as [|r s IH]; intros Hnd; [done|].
  simpl in Hnd. apply NoDup_cons in Hnd as [Hr Hnd].
  destruct (decide (id r ∉ ids)).
  - rewrite filter_cons_True by done. simpl. apply NoDup_cons. split; [|by apply IH].
    intros Hin. apply Hr. apply elem_of_map in Hin as (x & Hx & Hin).
    apply list_elem_of_filter in Hin as [_ Hin].
    apply elem_of_map. by exists x.
  - rewrite filter_cons_False by done. by apply IH.
Qed.

(** The records of a batch, one per position. *)
Lemma new_records_shape (abs name h : string) (chunks : list string)
  (embeddings : list vec) (r : record) :
  r ∈ new_records abs name h chunks embeddings →
  ∃ i, id r = chunk_id abs i
       ∧ meta r = {| path := abs; filename := name; chunk_idx := i; hash := h |}.
Proof.
  unfold new_records. generalize 0%nat. revert embeddings.
  generalize (length chunks) at 1 2. intros n. revert chunks.
  induction n as [|n IH]; intros chunks embeddings k Hr; simpl in Hr.
  - by apply elem_of_nil in Hr.
  - destruct embeddings as [|e es]; [by apply elem_of_nil in Hr|].
    destruct chunks as [|c cs]; [by apply elem_of_nil in Hr|].
    apply elem_of_cons in Hr as [->|Hr]; [by exists k|].
    by apply IH in Hr.
Qed.

Lemma new_records_ids (abs name h : string) (chunks : list string)
  (embeddings : list vec) :
  length embeddings = length chunks →
  map id (new_records abs name h chunks embeddings)
  = map (chunk_id abs) (seq 0 (length chunks)).
Proof.
  unfold new_records. generalize 0%nat.
  revert embeddings. induction chunks as [|c cs IH];
    intros [|e es] k Hlen; simpl in *; try done.
  f_equal. apply IH. lia.
Qed.

Lemma new_records_documents (abs name h : string) (chunks : list string)
  (embeddings : list vec) :
  length embeddings = length chunks →
  map document (new_records abs name h chunks embeddings) = chunks.
Proof.
  unfold new_records. generalize 0%nat.
  revert embeddings. induction chunks as [|c cs IH];
    intros [|e es] k Hlen; simpl in *; try done.
  f_equal. apply IH. lia.
Qed.

Lemma chunk_ids_NoDup (abs : string) (n : nat) :
  NoDup (map (chunk_id abs) (seq 0 n)).
Proof.
  apply NoDup_fmap_2_strong; [|apply NoDup_seq].
  intros i j _ _ H. by apply chunk_id_inj in H as [_ ?].
Qed.

(** The batch [index_file] builds passes the checks of [add]. *)
Lemma valid_batch_new (abs name h : string) (chunks : list string)
  (embeddings : list vec) :
  chunks ≠ [] → length embeddings = length chunks →
  Coll.valid_batch (map (chunk_id abs) (seq 0 (length chunks))) embeddings chunks
    (map (λ i, {| path := abs; filename := name; chunk_idx := i; hash := h |})
         (seq 0 (length chunks))) = true.
Proof.
  intros Hne Hlen. unfold Coll.valid_batch.
  rewrite !length_map, !length_seq.
  rewrite !bool_decide_true; [done|apply chunk_ids_NoDup|done..|].
  destruct chunks; [done|]. simpl. discriminate.
Qed.

End CollFacts.

(** ** [index_file] *)

Module IndexFacts.
Import Inv IdFacts CollFacts.

#[local] Arguments Chunker.chunk_text : simpl never.
#[local] Arguments PyPath.of_string : simpl never.
#[local] Arguments PyPath.to_string : simpl never.
#[local] Arguments PyPath.absolute : simpl never.
#[local] Arguments PyPath.name : simpl never.
#[local] Arguments FS.resolve : simpl never.
#[local] Arguments Coll.select : simpl never.
#[local] Arguments Coll.remove : simpl never.
#[local] Arguments Coll.insert_all : simpl never.
#[local] Arguments Coll.zip_records : simpl never.
#[local] Arguments Coll.valid_batch : simpl never.

Ltac run_M :=
  unfold bind, ret, lift, emit, get_store, put_store; simpl.

Ltac enter_index_file :=
  unfold index_file, FS.exists_, FS.is_file, FS.read_text, file_hash,
    FS.read_digest.

(** Records of [index_file] stay records of [index_file] under [delete]
    and [add]. *)
Lemma wf_store_remove (ids : list string) (s : list record) :
  wf_store s → wf_store (Coll.remove ids s).
Proof.
  intros [Hnd Hown]. split; [by apply remove_NoDup|].
  apply Forall_forall. intros r Hr. apply elem_of_remove in Hr as [_ Hr].
  rewrite Forall_forall in Hown. by apply Hown.
Qed.

Lemma new_records_own (abs name h : string) (chunks : list string)
  (embeddings : list vec) :
  Forall own_id (new_records abs name h chunks embeddings).
Proof.
  apply Forall_forall. intros r Hr.
  apply new_records_shape in Hr as (i & Hid & Hm).
  unfold own_id. by rewrite Hid, Hm.
Qed.

Lemma wf_store_insert_all (rs s : list record) :
  Forall own_id rs → wf_store s → wf_store (Coll.insert_all rs s).
Proof.
  intros Hrs [Hnd Hown]. split; [by apply insert_all_NoDup|].
  destruct (insert_all_extends rs s) as (added & -> & Hsub).
  apply Forall_app. split; [done|].
  rewrite Forall_forall in Hrs. apply Forall_forall. intros r Hr.
  apply Hrs. by apply Hsub.
Qed.

(** After the old records of a path are deleted, the batch for that path is
    stored whole, and it is all the collection has for the path. *)
Lemma records_of_replaced (abs name h : string) (chunks : list string)
  (embeddings : list vec) (s : list record) :
  wf_store s → length embeddings = length chunks →
  let s' := Coll.remove (map id (records_of abs s)) s in
  Coll.insert_all (new_records abs name h chunks embeddings) s'
  = s' ++ new_records abs name h chunks embeddings
  ∧ records_of abs (s' ++ new_records abs name h chunks embeddings)
    = new_records abs name h chunks embeddings.
Proof.
  intros [Hnd Hown] Hlen s'. split.
  - apply insert_all_fresh.
    + rewrite new_records_ids by done. apply chunk_ids_NoDup.
    + intros r Hr Hin. apply elem_of_map in Hin as (x & Hx & Hin).
      apply elem_of_remove in Hin as [Hnot Hin]. apply Hnot.
      apply elem_of_map. exists x. split; [done|]. apply elem_of_select.
      split; [|done].
      apply new_records_shape in Hr as (i & Hid & _).
      rewrite Forall_forall in Hown. specialize (Hown x Hin).
      unfold own_id in Hown. rewrite Hid, Hown in Hx.
      by apply chunk_id_inj in Hx as [-> _].
  - unfold records_of. rewrite select_app. unfold s'.
    fold (records_of abs s). unfold records_of at 1.
    rewrite select_remove_own. simpl. apply select_all.
    apply Forall_forall. intros r Hr.
    apply new_records_shape in Hr as (i & _ & ->). done.
Qed.

Section File.
Variables (e : env) (file_path : string) (text h : string).
Let p := PyPath.of_string file_path.
Let abs := PyPath.to_string (PyPath.absolute (FS.cwd (fs e)) p).
Hypothesis Hfile : FS.resolve (fs e) p = Some (FS.File (Ok text) (Ok h)).

(** Step 5: records exist, no [force], same fingerprint. *)
Lemma index_file_unchanged (w : world) (r : record) (rest : list record) :
  records_of abs (store w) = r :: rest → hash (meta r) = h →
  index_file e file_path false w
  = (Ok (Skipped "unchanged"),
     {| store := store w; trace := trace w ++ [EGet (Some abs)] |}).
Proof.
  intros Hsel Hh. enter_index_file. fold p. rewrite Hfile. simpl. fold abs.
  unfold Coll.get. run_M. unfold records_of in Hsel. rewrite Hsel. simpl.
  by rewrite bool_decide_true by done.
Qed.

(** Steps 6 to 10 without [force]: the old records are deleted, if there
    are any, and then the new ones are added. *)
Lemma index_file_replaces (w : world) (chunks : list string)
  (embeddings : list vec) :
  Chunker.chunk_text text 500 50 = Some chunks → chunks ≠ [] →
  encode e chunks = Ok embeddings → length embeddings = length chunks →
  (∀ r rest, records_of abs (store w) = r :: rest → hash (meta r) ≠ h) →
  let existing := records_of abs (store w) in
  index_file e file_path false w
  = (Ok (Indexed (length chunks) (PyPath.to_string p)),
     {| store :=
          Coll.insert_all (new_records abs (PyPath.name p) h chunks embeddings)
            (Coll.remove (map id existing) (store w));
        trace :=
          trace w ++ [EGet (Some abs)]
          ++ match existing with [] => [] | _ => [EDelete (map id existing)] end
          ++ [EChunk text; EEncode chunks;
              EAdd (map (chunk_id abs) (seq 0 (length chunks)))] |}).
Proof.
  intros Hchunks Hne Henc Hlen Hchanged existing.
  enter_index_file. fold p. rewrite Hfile. simpl. fold abs.
  unfold Coll.get, Coll.delete, Coll.add, chunk_call, embed. run_M.
  fold (records_of abs (store w)). fold existing.
  pose proof (Hchanged) as Hch. fold existing in Hch.
  destruct existing as [|r rest] eqn:Hex; simpl.
  - rewrite Hchunks. simpl. destruct chunks as [|c cs]; [done|].
    rewrite Henc. rewrite valid_batch_new by done. simpl.
    rewrite remove_nil. unfold new_records.
    by rewrite <- !app_assoc.
  - rewrite bool_decide_false by (by eapply Hch).
    simpl. rewrite Hchunks. simpl. destruct chunks as [|c cs]; [done|].
    rewrite Henc. rewrite valid_batch_new by done. simpl.
    unfold new_records. by rewrite <- !app_assoc.
Qed.

End File.

End IndexFacts.

(** ** What [index_file] does to the collection *)

Module IndexInvariants.
Import Inv IdFacts CollFacts IndexFacts.
#[local] Arguments Chunker.chunk_text : simpl never.
#[local] Arguments PyPath.of_string : simpl never.
#[local] Arguments PyPath.to_string : simpl never.
#[local] Arguments PyPath.absolute : simpl never.
#[local] Arguments PyPath.name : simpl never.
#[local] Arguments FS.resolve : simpl never.
#[local] Arguments Coll.select : simpl never.
#[local] Arguments Coll.remove : simpl never.
#[local] Arguments Coll.insert_all : simpl never.
#[local] Arguments Coll.zip_records : simpl never.
#[local] Arguments Coll.valid_batch : simpl never.
#[local] Arguments seq : simpl never.
#[local] Arguments length : simpl never.

(** The store after any call of [index_file]: untouched, or the old records
    of the path deleted, or a batch added, or both. A delete happens only
    without [force]. *)
Lemma index_file_store (e : env) (file_path : string) (force : bool)
  (w w' : world) (o : outcome file_result) :
  index_file e file_path force w = (o, w') →
  let p := PyPath.of_string file_path in
  let abs := PyPath.to_string (PyPath.absolute (FS.cwd (fs e)) p) in
  let existing := records_of abs (store w) in
  store w' = store w
  ∨ (force = false ∧ store w' = Coll.remove (map id existing) (store w))
  ∨ (∃ h chunks embeddings,
       (force = false ∨ existing = []) ∧
       store w' = Coll.insert_all
                    (new_records abs (PyPath.name p) h chunks embeddings)
                    (Coll.remove (map id existing) (store w)))
  ∨ (∃ h chunks embeddings,
       force = true ∧
       store w' = Coll.insert_all
                    (new_records abs (PyPath.name p) h chunks embeddings)
                    (store w)).
Proof.
  intros H p abs existing. revert H. enter_index_file. fold p.
  destruct (FS.resolve (fs e) p) as [[[text| |] digest|entries]|]; simpl;
    try (intros [= <- <-]; by left).
  unfold Coll.get, Coll.delete, Coll.add, chunk_call, embed. fold abs.
  destruct digest as [h| |]; run_M; try (intros [= <- <-]; by left).
  fold (records_of abs (store w)). fold existing.
  fold (new_records abs (PyPath.name p) h).
  assert (∀ b, bool_decide (map id existing ≠ []) = b →
            b = false → map id existing = []) as Hnil.
  { intros b Hb ->. apply bool_decide_eq_false in Hb.
    by destruct (map id existing); [|destruct Hb]. }
  destruct (Chunker.chunk_text text 500 50) as [[|c cs]|]; simpl;
    [| destruct (encode e (c :: cs)) as [embeddings| |]; simpl;
       [destruct (Coll.valid_batch _ _ _ _); simpl|..] |];
    (destruct (bool_decide (map id existing ≠ [])) eqn:Hex;
     specialize (Hnil _ eq_refl);
     destruct force; simpl;
     destruct (map meta existing) as [|m ms]; simpl;
     try destruct (bool_decide (hash m = h)); simpl;
     intros [= <- <-]; simpl;
     first
       [ by left
       | right; left; by split
       | right; right; right; by exists h, (c :: cs), embeddings
       | right; right; left; exists h, (c :: cs), embeddings;
         split; [by left|done]
       | right; right; left; exists h, (c :: cs), embeddings;
         split; [by left|]; rewrite Hnil by done; by rewrite remove_nil ]).
Qed.


Lemma hash_consistent_remove (ids : list string) (s : list record) :
  hash_consistent s → hash_consistent (Coll.remove ids s).
Proof.
  intros H r1 r2 H1 H2. apply elem_of_remove in H1 as [_ H1].
  apply elem_of_remove in H2 as [_ H2]. by apply H.
Qed.

(** A batch for a path that has no record left keeps one hash per path. *)
Lemma hash_consistent_batch (abs name h : string) (chunks : list string)
  (embeddings : list vec) (s : list record) :
  hash_consistent s → records_of abs s = [] →
  hash_consistent
    (Coll.insert_all (new_records abs name h chunks embeddings) s).
Proof.
  intros Hs Hnone.
  destruct (insert_all_extends (new_records abs name h chunks embeddings) s)
    as (added & -> & Hsub).
  assert (∀ r, r ∈ s → path (meta r) ≠ abs) as Hother.
  { intros r Hr Hp. assert (r ∈ records_of abs s) as Hin
      by (by apply elem_of_select).
    rewrite Hnone in Hin. by apply elem_of_nil in Hin. }
  assert (∀ r, r ∈ added → path (meta r) = abs ∧ hash (meta r) = h) as Hnew.
  { intros r Hr. apply Hsub in Hr.
    apply new_records_shape in Hr as (i & _ & ->). done. }
  intros r1 r2 H1 H2 Hp.
  apply elem_of_app in H1 as [H1|H1]; apply elem_of_app in H2 as [H2|H2].
  - by apply Hs.
  - destruct (Hnew _ H2) as [Hp2 _]. destruct (Hother _ H1). congruence.
  - destruct (Hnew _ H1) as [Hp1 _]. destruct (Hother _ H2). congruence.
  - destruct (Hnew _ H1) as [_ ->]. by destruct (Hnew _ H2) as [_ ->].
Qed.

(** [index_file] keeps the collection well formed, with [force] or not. *)
Lemma wf_store_index_file (e : env) (file_path : string) (force : bool)
  (w w' : world) (o : outcome file_result) :
  wf_store (store w) → index_file e file_path force w = (o, w') →
  wf_store (store w').
Proof.
  intros Hwf H. apply index_file_store in H.
  destruct H as [->|[[_ ->]|[(h & cs & es & _ & ->)|(h & cs & es & _ & ->)]]].
  - done.
  - by apply wf_store_remove.
  - apply wf_store_insert_all; [apply new_records_own|by apply wf_store_remove].
  - apply wf_store_insert_all; [apply new_records_own|done].
Qed.

(** Without [force], [index_file] keeps one hash per path. *)
Lemma hash_consistent_index_file (e : env) (file_path : string)
  (w w' : world) (o : outcome file_result) :
  hash_consistent (store w) → index_file e file_path false w = (o, w') →
  hash_consistent (store w').
Proof.
  intros Hc H. apply index_file_store in H.
  destruct H as [->|[[_ ->]|[(h & cs & es & _ & ->)|(h & cs & es & [=] & _)]]].
  - done.
  - by apply hash_consistent_remove.
  - apply hash_consistent_batch; [by apply hash_consistent_remove|].
    apply select_remove_own.
Qed.

(** With [force], [index_file] deletes nothing: every record stays, and
    what is added comes after. *)
Lemma index_file_force_keeps (e : env) (file_path : string)
  (w w' : world) (o : outcome file_result) :
  index_file e file_path true w = (o, w') →
  ∃ added, store w' = store w ++ added.
Proof.
  intros H. apply index_file_store in H.
  destruct H as [->|[[[=] _]|[(h & cs & es & [[=]|Hnil] & ->)
                             |(h & cs & es & _ & ->)]]].
  - exists []. by rewrite app_nil_r.
  - rewrite Hnil. simpl. rewrite remove_nil.
    destruct (insert_all_extends
                (new_records
                   (PyPath.to_string
                      (PyPath.absolute (FS.cwd (fs e))
                         (PyPath.of_string file_path)))
                   (PyPath.name (PyPath.of_string file_path)) h cs es)
                (store w)) as (added & -> & _).
    by exists added.
  - destruct (insert_all_extends
                (new_records
                   (PyPath.to_string
                      (PyPath.absolute (FS.cwd (fs e))
                         (PyPath.of_string file_path)))
                   (PyPath.name (PyPath.of_string file_path)) h cs es)
                (store w)) as (added & -> & _).
    by exists added.
Qed.

End IndexInvariants.

(** ** The indexer: claims *)

Module IndexClaims.
Import Inv IdFacts CollFacts IndexFacts IndexInvariants Scenario.

(** C5. A readable text file with at least one chunk, not yet in the
    collection under its current fingerprint, is indexed by a first
    [index_file] without [force]: the call returns [indexed]. A second call
    on the unchanged file returns [skipped] with the reason "unchanged"; all
    it does is the one [get] (no chunking, no embedding, no delete, no add),
    and the collection is left as the first call made it. *)
Theorem index_file_idempotent (e : env) (file_path text h : string)
  (chunks : list string) (embeddings : list vec) (w : world) :
  let p := PyPath.of_string file_path in
  let abs := PyPath.to_string (PyPath.absolute (FS.cwd (fs e)) p) in
  wf_store (store w) →
  FS.resolve (fs e) p = Some (FS.File (Ok text) (Ok h)) →
  Chunker.chunk_text text 500 50 = Some chunks → chunks ≠ [] →
  encode e chunks = Ok embeddings → length embeddings = length chunks →
  (∀ r rest, records_of abs (store w) = r :: rest → hash (meta r) ≠ h) →
  ∃ w1,
    index_file e file_path false w
    = (Ok (Indexed (length chunks) (PyPath.to_string p)), w1)
    ∧ index_file e file_path false w1
      = (Ok (Skipped "unchanged"),
         {| store := store w1; trace := trace w1 ++ [EGet (Some abs)] |})
    ∧ records_of abs (store w1)
      = new_records abs (PyPath.name p) h chunks embeddings.
Proof.
  intros p abs Hwf Hfile Hchunks Hne Henc Hlen Hchanged.
  eexists. split; [by eapply index_file_replaces|].
  destruct (records_of_replaced abs (PyPath.name p) h chunks embeddings
              (store w) Hwf Hlen) as [Hins Hrec].
  cbv zeta in Hins, Hrec. simpl store. fold p abs. rewrite Hins.
  split; [|done].
  destruct (new_records abs (PyPath.name p) h chunks embeddings)
    as [|r rest] eqn:Hnew.
  { apply (f_equal (map document)) in Hnew.
    rewrite new_records_documents in Hnew by done. done. }
  eapply index_file_unchanged; [done|simpl; exact Hrec|].
  assert (r ∈ new_records abs (PyPath.name p) h chunks embeddings) as Hr
    by (rewrite Hnew; apply elem_of_cons; by left).
  apply new_records_shape in Hr as (i & _ & ->). done.
Qed.

Lemma index_file_idempotent_witness :
  ∃ w1,
    index_file notes_short "/w/notes.txt" false fresh
    = (Ok (Indexed 1 "/w/notes.txt"), w1)
    ∧ index_file notes_short "/w/notes.txt" false w1
      = (Ok (Skipped "unchanged"),
         {| store := store w1;
            trace := trace w1 ++ [EGet (Some "/w/notes.txt")] |})
    ∧ records_of "/w/notes.txt" (store w1)
      = new_records "/w/notes.txt" "notes.txt" "md5-short" ["short"] [[0%float]].
Proof.
  apply (index_file_idempotent notes_short "/w/notes.txt" "short" "md5-short"
           ["short"] [[0%float]] fresh).
  - split; constructor.
  - reflexivity.
  - reflexivity.
  - discriminate.
  - reflexivity.
  - reflexivity.
  - intros r rest H. vm_compute in H. discriminate.
Defined.

(** C1 at its failing input. [/w/notes.txt] is indexed with two chunks, its
    content is replaced by one word, and it is indexed again with [force].
    The call returns [indexed] with one chunk; it deletes nothing, and the
    collection holds the two old records as before, under the old hash. *)
Theorem force_keeps_stale_records :
  let w1 := after notes_long false fresh in
  let w2 := after notes_short true w1 in
  fst (index_file notes_long "/w/notes.txt" false fresh)
  = Ok (Indexed 2 "/w/notes.txt")
  ∧ fst (index_file notes_short "/w/notes.txt" true w1)
    = Ok (Indexed 1 "/w/notes.txt")
  ∧ store w2 = store w1
  ∧ map (λ r, (id r, hash (meta r), String.length (document r))) (store w2)
    = [("/w/notes.txt::0", "md5-long", 500%nat);
       ("/w/notes.txt::1", "md5-long", 150%nat)]
  ∧ existsb is_delete (trace w2) = false.
Proof. vm_compute. repeat split; reflexivity. Qed.

(** C4 at its failing input. [/w/notes.txt] is indexed with one chunk, its
    content grows to two chunks, and it is indexed again with [force]. The
    first record stays as it was and the second is added: the two records of
    the path carry different hashes. *)
Theorem force_mixes_hashes :
  let w1 := after notes_short false fresh in
  let w2 := after notes_long true w1 in
  map (λ r, (id r, path (meta r), hash (meta r))) (store w2)
  = [("/w/notes.txt::0", "/w/notes.txt", "md5-short");
     ("/w/notes.txt::1", "/w/notes.txt", "md5-long")]
  ∧ ¬ hash_consistent (store w2).
Proof.
  intros w1 w2.
  assert (map (λ r, (id r, path (meta r), hash (meta r))) (store w2)
          = [("/w/notes.txt::0", "/w/notes.txt", "md5-short");
             ("/w/notes.txt::1", "/w/notes.txt", "md5-long")]) as Hmap
    by (vm_compute; reflexivity).
  split; [done|]. intros Hc.
  destruct (store w2) as [|r1 [|r2 [|]]]; try discriminate.
  injection Hmap as Hi1 Hp1 Hh1 Hi2 Hp2 Hh2.
  assert (hash (meta r1) = hash (meta r2)) as Heq.
  { apply Hc; [apply elem_of_cons; by left
              |apply elem_of_cons; right; apply elem_of_cons; by left
              |congruence]. }
  rewrite Hh1, Hh2 in Heq. discriminate.
Qed.

(** C6 at its failing input. [/w/notes.txt] is a regular file and reading it
    raises [OSError]: [index_file] returns [skipped] with the reason
    "not text", as it does for a binary file. When the text is read and the
    second read, that of [file_hash], raises [OSError], the exception leaves
    [index_file]. *)
Theorem read_failure_is_skipped :
  FS.is_file (fs notes_unreadable) (PyPath.of_string "/w/notes.txt") = true
  ∧ FS.read_text (fs notes_unreadable) (PyPath.of_string "/w/notes.txt")
    = Raise OSError
  ∧ index_file notes_unreadable "/w/notes.txt" false fresh
    = (Ok (Skipped "not text"), fresh)
  ∧ index_file notes_vanishing "/w/notes.txt" false fresh
    = (Raise OSError, fresh).
Proof. vm_compute. repeat split; reflexivity. Qed.

End IndexClaims.

(** ** The directory scan *)

Module ScanFacts.
Import Inv.

#[local] Arguments index_file : simpl never.

(** A path that is not a candidate is passed over. *)
Lemma scan_pass (e : env) (extensions : list string) (force : bool)
  (p : PyPath.t) (rest : list PyPath.t) (results : dir_results) :
  candidate e extensions p = false →
  scan e extensions force (p :: rest) results
  = scan e extensions force rest results.
Proof.
  unfold candidate. intros H. simpl.
  destruct (wanted e extensions p); [|done].
  destruct (hidden p); [done|]. by destruct (ignored p).
Qed.

(** A candidate is handed to [index_file]. *)
Lemma scan_visit (e : env) (extensions : list string) (force : bool)
  (p : PyPath.t) (rest : list PyPath.t) (results : dir_results) :
  candidate e extensions p = true →
  scan e extensions force (p :: rest) results
  = (result <- index_file e (PyPath.to_string p) force ;;
     scan e extensions force rest (tally results result)).
Proof.
  unfold candidate. intros H. simpl.
  destruct (wanted e extensions p); [|done].
  destruct (hidden p); [done|]. by destruct (ignored p).
Qed.

(** The scan is the scan of its candidates. *)
Lemma scan_candidates (e : env) (extensions : list string) (force : bool)
  (paths : list PyPath.t) (results : dir_results) (w : world) :
  scan e extensions force paths results w
  = scan e extensions force (List.filter (candidate e extensions) paths)
      results w.
Proof.
  revert results w. induction paths as [|p rest IH]; intros results w; [done|].
  cbn [List.filter]. destruct (candidate e extensions p) eqn:Hc.
  - rewrite !scan_visit by done. unfold bind.
    destruct (index_file e (PyPath.to_string p) force w) as [[r| |] w1]; [|done..].
    apply IH.
  - rewrite scan_pass by done. apply IH.
Qed.



(** What holds of the world before [index_file] and after it holds before
    the scan and after it. *)
Lemma scan_invariant (P : world → Prop) (e : env) (extensions : list string)
  (force : bool) :
  (∀ file_path w o w', P w → index_file e file_path force w = (o, w') → P w') →
  ∀ paths results w o w',
    P w → scan e extensions force paths results w = (o, w') → P w'.
Proof.
  intros Hstep. induction paths as [|p rest IH]; intros results w o w' Hw H.
  - by injection H as <- <-.
  - destruct (candidate e extensions p) eqn:Hc.
    + rewrite scan_visit in H by done. unfold bind in H.
      destruct (index_file e (PyPath.to_string p) force w) as [[x| |] w1] eqn:Hi;
        [eapply IH; [|done]; by eapply Hstep
        |injection H as <- <-; by eapply Hstep..].
    + rewrite scan_pass in H by done. by eapply IH.
Qed.

End ScanFacts.

(** ** Paths below a directory *)

Module PathFacts.

Lemma descend_snoc (k : string) (segs : list string) : ∀ n : FS.node,
  FS.descend n (segs ++ [k])
  = match FS.descend n segs with
    | Some (FS.Dir entries) => FS.lookup_entry k entries
    | _ => None
    end.
Proof.
  induction segs as [|s segs IH]; intros n; simpl.
  - destruct n as [t d|entries]; [done|]. by destruct (FS.lookup_entry k entries).
  - destruct n as [t d|entries]; [done|].
    destruct (FS.lookup_entry s entries); [apply IH|done].
Qed.

(** An entry of a directory is found under the path of the directory. *)
Lemma resolve_child (fs : FS.t) (d : PyPath.t) (k : string)
  (entries : list (string * FS.node)) :
  FS.resolve fs d = Some (FS.Dir entries) → PyPath.is_root k = false →
  FS.resolve fs (d ++ [k]) = FS.lookup_entry k entries.
Proof.
  unfold FS.resolve, PyPath.absolute. intros Hd Hk.
  destruct (PyPath.is_absolute d) eqn:Habs.
  - destruct d as [|r segs]; [by simpl in Habs|]. simpl in *.
    rewrite Habs in Hd |- *. simpl. rewrite Habs, descend_snoc, Hd. done.
  - assert (PyPath.is_absolute (d ++ [k]) = false) as ->
      by (destruct d; simpl in *; done).
    rewrite app_assoc. destruct (FS.cwd fs ++ d) as [|r segs]; [done|].
    simpl. destruct (PyPath.is_root r); [|done].
    rewrite descend_snoc. by rewrite Hd.
Qed.

Lemma name_snoc (d : PyPath.t) (k : string) :
  PyPath.name (d ++ [k]) = PyPath.name [k].
Proof. unfold PyPath.name. by rewrite last_snoc. Qed.

Lemma suffix_snoc (d : PyPath.t) (k : string) :
  PyPath.suffix (d ++ [k]) = PyPath.suffix [k].
Proof. unfold PyPath.suffix. by rewrite name_snoc. Qed.

Lemma hidden_app (d l : PyPath.t) : hidden (d ++ l) = hidden d || hidden l.
Proof. apply existsb_app. Qed.

Lemma ignored_app (d l : PyPath.t) : ignored (d ++ l) = ignored d || ignored l.
Proof.
  unfold ignored. rewrite <- !bool_decide_or. apply bool_decide_ext.
  rewrite !elem_of_app. tauto.
Qed.

(** Whether an entry of the directory [d] reaches [index_file]. *)
Lemma candidate_child (e : env) (extensions : list string) (d : PyPath.t)
  (k : string) (entries : list (string * FS.node)) :
  FS.resolve (fs e) d = Some (FS.Dir entries) → PyPath.is_root k = false →
  candidate e extensions (d ++ [k])
  = match FS.lookup_entry k entries with
    | Some (FS.File _ _) => true
    | _ => false
    end
    && bool_decide (PyStr.lower (PyPath.suffix [k]) ∈ extensions)
    && negb (hidden d || hidden [k])
    && negb (ignored d || ignored [k]).
Proof.
  intros Hd Hk. unfold candidate, wanted, FS.is_file.
  by rewrite (resolve_child _ _ _ _ Hd Hk), suffix_snoc, hidden_app, ignored_app.
Qed.

End PathFacts.

Module ScanClaims.
Import Inv Scenario ScanFacts.

#[local] Arguments index_file : simpl never.





(** The six orders of three things. *)
Lemma three_orders {A} (a b c : A) (l : list A) :
  l ≡ₚ [a; b; c] →
  l = [a; b; c] ∨ l = [a; c; b] ∨ l = [b; a; c] ∨ l = [c; a; b]
  ∨ l = [b; c; a] ∨ l = [c; b; a].
Proof.
  intros H. apply Permutation_cons_inv_r in H as (k1 & k2 & -> & H).
  apply Permutation_length_2_inv in H as [H|H];
    destruct k1 as [|x [|y [|z k1]]]; simplify_eq/=; auto 10.
Qed.

(** C9, as the code has it. A directory with no hidden segment and no
    [node_modules] or [__pycache__] segment in its own path holds exactly
    [a.py], [.hidden/b.py] and [node_modules/c.js], in whatever order the
    system lists them. With the extensions [.py] and [.js] the one candidate
    of the scan is [a.py], and [index_directory] is the one call of
    [index_file] on it. *)
Theorem walk_three_files (e : env) (dir_path : string) (force : bool)
  (w : world) (ta da tb db tc dc : outcome string)
  (entries : list (string * FS.node)) :
  let d := PyPath.of_string dir_path in
  entries ≡ₚ [("a.py", FS.File ta da);
              (".hidden", FS.Dir [("b.py", FS.File tb db)]);
              ("node_modules", FS.Dir [("c.js", FS.File tc dc)])] →
  FS.resolve (fs e) d = Some (FS.Dir entries) →
  hidden d = false → ignored d = false →
  List.filter (candidate e [".py"; ".js"]) (FS.rglob (fs e) d) = [d ++ ["a.py"]]
  ∧ index_directory e dir_path (Some [".py"; ".js"]) force w
    = (result <- index_file e (PyPath.to_string (d ++ ["a.py"])) force ;;
       ret (tally {| indexed := 0; skipped := 0; files := [] |} result)) w.
Proof.
  intros d Hperm Hd Hhid Hign.
  assert (FS.resolve (fs e) (d ++ [".hidden"])
          = Some (FS.Dir [("b.py", FS.File tb db)])
          ∧ FS.resolve (fs e) (d ++ ["node_modules"])
            = Some (FS.Dir [("c.js", FS.File tc dc)])
          ∧ candidate e [".py"; ".js"] (d ++ ["a.py"]) = true
          ∧ candidate e [".py"; ".js"] (d ++ [".hidden"]) = false
          ∧ candidate e [".py"; ".js"] (d ++ ["node_modules"]) = false)
    as (Hh & Hn & C1 & C2 & C3).
  { rewrite !(PathFacts.candidate_child _ _ _ _ _ Hd) by done.
    rewrite !(PathFacts.resolve_child _ _ _ _ Hd) by done.
    rewrite Hhid, Hign.
    apply three_orders in Hperm as [->|[->|[->|[->|[->| ->]]]]]; done. }
  assert (candidate e [".py"; ".js"] ((d ++ [".hidden"]) ++ ["b.py"]) = false)
    as C4.
  { rewrite (PathFacts.candidate_child _ _ _ _ _ Hh) by done.
    rewrite PathFacts.hidden_app. simpl. by rewrite !orb_true_r. }
  assert (candidate e [".py"; ".js"] ((d ++ ["node_modules"]) ++ ["c.js"])
          = false) as C5.
  { rewrite (PathFacts.candidate_child _ _ _ _ _ Hn) by done.
    rewrite PathFacts.ignored_app. simpl.
    rewrite !orb_true_r. by rewrite !andb_false_r. }
  assert (List.filter (candidate e [".py"; ".js"]) (FS.rglob (fs e) d)
          = [d ++ ["a.py"]]) as Hf.
  { unfold FS.rglob. rewrite Hd.
    apply three_orders in Hperm as [->|[->|[->|[->|[->| ->]]]]];
      simpl; rewrite ?app_nil_r; simpl; by rewrite C1, C2, C3, C4, C5. }
  split; [done|].
  unfold index_directory. simpl default. fold d. rewrite scan_candidates, Hf.
  by rewrite scan_visit.
Qed.

Lemma walk_three_files_witness :
  List.filter (candidate (env_of three_files flat_encode) [".py"; ".js"])
    (FS.rglob (fs (env_of three_files flat_encode)) ["/"; "w"])
  = [["/"; "w"; "a.py"]]
  ∧ index_directory (env_of three_files flat_encode) "/w" (Some [".py"; ".js"])
      false fresh
    = (Ok {| indexed := 1; skipped := 0; files := [Indexed 1 "/w/a.py"] |},
       {| store :=
            new_records "/w/a.py" "a.py" "md5-a" ["a = 1"] [[0%float]];
          trace := [EGet (Some "/w/a.py"); EChunk "a = 1"; EEncode ["a = 1"];
                    EAdd ["/w/a.py::0"]] |}).
Proof.
  destruct (walk_three_files (env_of three_files flat_encode) "/w" false fresh
              (Ok "a = 1") (Ok "md5-a") (Ok "b = 2") (Ok "md5-b")
              (Ok "c = 3") (Ok "md5-c") three_files) as [H1 H2];
    [reflexivity..|].
  split; [exact H1|]. rewrite H2. vm_compute. reflexivity.
Defined.

(** C9 fails as stated: the path [/srv/node_modules/pkg] has no hidden
    segment, and the scan of the three files below it has no candidate:
    [a.py] too has [node_modules] among its parts. *)
Lemma walk_inside_node_modules :
  hidden (PyPath.of_string "/srv/node_modules/pkg") = false
  ∧ FS.resolve (fs inside_node_modules) (PyPath.of_string "/srv/node_modules/pkg")
    = Some (FS.Dir three_files)
  ∧ List.filter (candidate inside_node_modules [".py"; ".js"])
      (FS.rglob (fs inside_node_modules)
         (PyPath.of_string "/srv/node_modules/pkg")) = []
  ∧ index_directory inside_node_modules "/srv/node_modules/pkg"
      (Some [".py"; ".js"]) false fresh
    = (Ok {| indexed := 0; skipped := 0; files := [] |}, fresh).
Proof. vm_compute. repeat split; reflexivity. Qed.

End ScanClaims.

(** ** Search *)

Module SearchClaims.
Import Scenario SearchSpec.

(** The loop over [range(len(ids))] formats the rows from the [k]-th on. *)
Lemma format_loop_rows (results : query_result) (ids : list string)
  (distances : list float) (documents : list string)
  (metadatas : list metadata) :
  q_ids results !! 0%nat = Some ids →
  q_distances results !! 0%nat = Some distances →
  q_documents results !! 0%nat = Some documents →
  q_metadatas results !! 0%nat = Some metadatas →
  length distances = length ids → length documents = length ids →
  length metadatas = length ids →
  ∀ (n k : nat) (formatted : list hit) (w : world),
    (k + n = length ids)%nat →
    format_loop results (seq k n) formatted w
    = (Ok (formatted ++ rows_to_hits (drop k ids) (drop k distances)
                          (drop k documents) (drop k metadatas)), w).
Proof.
  intros Hi Hd Hdoc Hm Ld Ldoc Lm.
  induction n as [|n IH]; intros k formatted w Hk.
  - simpl. rewrite (drop_ge ids) by lia. simpl. by rewrite app_nil_r.
  - destruct (lookup_lt_is_Some_2 ids k) as [i Hik]; [lia|].
    destruct (lookup_lt_is_Some_2 distances k) as [d Hdk]; [lia|].
    destruct (lookup_lt_is_Some_2 documents k) as [doc Hdock]; [lia|].
    destruct (lookup_lt_is_Some_2 metadatas k) as [m Hmk]; [lia|].
    rewrite (drop_S _ _ _ Hik), (drop_S _ _ _ Hdk), (drop_S _ _ _ Hdock),
      (drop_S _ _ _ Hmk).
    cbn [seq format_loop rows_to_hits]. unfold bind at 1.
    unfold format_hit, item, bind, ret, lift.
    rewrite Hi, Hd, Hdoc, Hm, Hik, Hdk, Hdock, Hmk.
    rewrite IH by lia. by rewrite <- app_assoc.
Qed.

(** C8. [search] embeds the query and asks the collection for the [limit]
    nearest records. Each returned row, with distance [d], becomes one
    result with the fields id, score, text, path, filename and chunk_idx,
    where the score is [1 - d]; the results are in the order of the rows.
    When the collection returns no ids, the result is the empty list. *)
Theorem search_formats (e : env) (query_text : string) (limit : Z) (w : world)
  (query_embedding : list vec) (results : query_result) :
  encode e [query_text] = Ok query_embedding →
  nearest e (store w) query_embedding limit = Ok results →
  let w' := {| store := store w;
               trace := trace w ++ [EEncode [query_text]; EQuery limit] |} in
  (∀ ids distances documents metadatas,
     q_ids results !! 0%nat = Some ids →
     q_distances results !! 0%nat = Some distances →
     q_documents results !! 0%nat = Some documents →
     q_metadatas results !! 0%nat = Some metadatas →
     length distances = length ids → length documents = length ids →
     length metadatas = length ids →
     search e query_text limit w
     = (Ok (rows_to_hits ids distances documents metadatas), w'))
  ∧ (q_ids results = [] ∨ q_ids results !! 0%nat = Some [] →
     search e query_text limit w = (Ok [], w')).
Proof.
  intros Henc Hq w'.
  assert (search e query_text limit w
          = match q_ids results with
            | (_ :: _) as ids0 :: _ =>
                format_loop results (seq 0 (length ids0)) [] w'
            | _ => (Ok [], w')
            end) as Hs.
  { unfold search, embed, query, bind, ret, lift, emit, get_store.
    simpl. rewrite Henc. simpl. rewrite Hq. unfold w'.
    rewrite <- app_assoc. simpl. by destruct (q_ids results) as [|[|]]. }
  rewrite Hs. split.
  - intros ids distances documents metadatas Hi Hd Hdoc Hm Ld Ldoc Lm.
    destruct (q_ids results) as [|ids0 t] eqn:Hids; [done|].
    simpl in Hi. injection Hi as ->.
    destruct ids as [|i ids'] eqn:Hids'; [done|]. rewrite <- Hids' in *.
    erewrite format_loop_rows; [by rewrite !drop_0|by rewrite Hids|done..|lia].
  - intros [->|H]; [done|].
    destruct (q_ids results) as [|ids0 t]; [done|].
    simpl in H. by injection H as ->.
Qed.

Lemma search_formats_witness :
  search (answering two_rows) "what is a" 5 fresh
  = (Ok [ {| h_id := "/w/a.py::0"; h_score := 0.75%float; h_text := "a = 1";
             h_path := "/w/a.py"; h_filename := "a.py"; h_chunk_idx := 0 |};
          {| h_id := "/w/b.py::3"; h_score := 0.5%float; h_text := "b = 2";
             h_path := "/w/b.py"; h_filename := "b.py"; h_chunk_idx := 3 |} ],
     {| store := []; trace := [EEncode ["what is a"]; EQuery 5] |}).
Proof.
  destruct (search_formats (answering two_rows) "what is a" 5 fresh
              [[0%float]] two_rows eq_refl eq_refl) as [H _].
  rewrite (H ["/w/a.py::0"; "/w/b.py::3"] [0.25%float; 0.5%float]
             ["a = 1"; "b = 2"]
             [{| path := "/w/a.py"; filename := "a.py"; chunk_idx := 0;
                 hash := "md5-a" |};
              {| path := "/w/b.py"; filename := "b.py"; chunk_idx := 3;
                 hash := "md5-b" |}]) by reflexivity.
  vm_compute. reflexivity.
Defined.

End SearchClaims.

(** ** The command surface *)

Module CommandClaims.
Import Scenario.

(** C10. Before [init], a [clear] command returns the plain "ok" response
    and touches nothing: no call is made and the process is as it was. The
    commands [search], [index_file], [index_dir] and [stats] return the
    "not initialized" error in that state, whatever else the request
    holds. *)
Theorem uninitialized_commands (e : env) (c : command) (p : process) :
  _collection p = None →
  (cmd c = Some "clear" → handle_command e c p = (Ok ROk, p))
  ∧ (cmd c = Some "search" ∨ cmd c = Some "index_file"
     ∨ cmd c = Some "index_dir" ∨ cmd c = Some "stats" →
     handle_command e c p = (Ok (RError "not initialized"), p)).
Proof.
  intros Hnone. unfold handle_command. rewrite Hnone. split.
  - intros ->. reflexivity.
  - intros [->|[->|[->| ->]]]; reflexivity.
Qed.

Lemma uninitialized_commands_witness :
  handle_command notes_short (request "clear") uninitialized
  = (Ok ROk, uninitialized)
  ∧ handle_command notes_short (request "stats") uninitialized
    = (Ok (RError "not initialized"), uninitialized).
Proof.
  destruct (uninitialized_commands notes_short (request "clear") uninitialized
              eq_refl) as [H1 _].
  destruct (uninitialized_commands notes_short (request "stats") uninitialized
              eq_refl) as [_ H2].
  split; [apply H1; reflexivity|apply H2; auto].
Defined.

End CommandClaims.

(** ** Invariants along the pipeline *)

Module PipelineInvariants.
Import Inv IndexInvariants ScanFacts.

(** A directory scan keeps the collection well formed. *)
Lemma wf_store_index_directory (e : env) (dir_path : string)
  (extensions : option (list string)) (force : bool) (w w' : world)
  (o : outcome dir_results) :
  wf_store (store w) →
  index_directory e dir_path extensions force w = (o, w') →
  wf_store (store w').
Proof.
  intros Hwf H. unfold index_directory in H.
  eapply (scan_invariant (λ w, wf_store (store w))); [|exact Hwf|exact H].
  intros file_path w0 o0 w1 H0 H1. by eapply wf_store_index_file.
Qed.

(** Without [force], a directory scan keeps one hash per path. *)
Lemma hash_consistent_index_directory (e : env) (dir_path : string)
  (extensions : option (list string)) (w w' : world)
  (o : outcome dir_results) :
  hash_consistent (store w) →
  index_directory e dir_path extensions false w = (o, w') →
  hash_consistent (store w').
Proof.
  intros Hc H. unfold index_directory in H.
  eapply (scan_invariant (λ w, hash_consistent (store w))); [|exact Hc|exact H].
  intros file_path w0 o0 w1 H0 H1. by eapply hash_consistent_index_file.
Qed.

(** The empty collection is well formed and has one hash per path. *)
Lemma empty_store_invariants : wf_store [] ∧ hash_consistent [].
Proof.
  split; [split; constructor|].
  intros r1 r2 H. by apply elem_of_nil in H.
Qed.

End PipelineInvariants.

(** * Further properties *)

(** ** The chunks of [chunk_text] *)

Module ChunkerMore.
Import PyStr Chunker PyStrFacts ChunkerFacts.

Lemma chunk_text_spec (text : string) (size overlap : Z) :
  overlap < size →
  chunk_text text size overlap = Some (spec_chunk text size overlap).
Proof. intros H. by apply chunk_text_fuel_spec. Qed.

Lemma substring_length_le (s : string) : ∀ n m : nat,
  (String.length (String.substring n m s) ≤ m)%nat.
Proof.
  induction s as [|c s IH]; intros [|n] [|m]; simpl; try lia.
  - specialize (IH 0%nat m). lia.
  - apply (IH n 0%nat).
  - apply (IH n (S m)).
Qed.

Lemma has_ink_length (s : string) : has_ink s = true → (1 ≤ String.length s)%nat.
Proof. destruct s; simpl; [discriminate|lia]. Qed.

(** A piece of a text has ink only if the text has. *)
Lemma has_ink_substring_inv (s : string) : ∀ n m : nat,
  has_ink (String.substring n m s) = true → has_ink s = true.
Proof.
  induction s as [|c s IH]; intros [|n] [|m]; simpl; try done.
  - intros H. apply orb_true_iff in H as [->|H]; [done|].
    rewrite (IH _ _ H). apply orb_true_r.
  - intros H. rewrite (IH _ _ H). apply orb_true_r.
  - intros H. rewrite (IH _ _ H). apply orb_true_r.
Qed.

(** A piece of a text that holds a character which is not whitespace has
    ink. *)
Lemma has_ink_substring_at (s : string) : ∀ (i n m : nat) (c : ascii),
  String.get i s = Some c → isspace c = false →
  (n ≤ i < n + m)%nat → has_ink (String.substring n m s) = true.
Proof.
  induction s as [|d s IH]; intros i n m c Hget Hc Hi; [by destruct i|].
  destruct n as [|n].
  - destruct m as [|m]; [lia|]. simpl. destruct i as [|i].
    + simpl in Hget. injection Hget as ->. by rewrite Hc.
    + simpl in Hget. rewrite (IH i 0%nat m c) by (done || lia).
      apply orb_true_r.
  - destruct i as [|i]; [lia|]. simpl in Hget.
    change (String.substring (S n) m (String d s)) with (String.substring n m s).
    apply (IH i n m c); (done || lia).
Qed.

Lemma get_lt (s : string) : ∀ (i : nat) (c : ascii),
  String.get i s = Some c → (i < String.length s)%nat.
Proof.
  induction s as [|d s IH]; intros [|i] c H; simpl in *; try done; try lia.
  apply IH in H. lia.
Qed.

(** Where the windows start. *)
Lemma elem_of_spec_starts (n step s : Z) :
  s ∈ spec_starts n step ↔
  s < n ∧ ∃ k : nat, (k < Z.to_nat n)%nat ∧ s = Z.of_nat k * step.
Proof.
  unfold spec_starts. rewrite list_elem_of_filter, list_elem_of_In, in_map_iff.
  split.
  - intros (Hlt & k & <- & Hk). apply in_seq in Hk. split; [done|].
    exists k. split; [lia|done].
  - intros (Hlt & k & Hk & ->). split; [done|]. exists k. split; [done|].
    apply in_seq. lia.
Qed.

(** X1. With a positive size and [overlap < size], every chunk holds a
    character that is not whitespace and has between 1 and [size]
    characters. *)
Theorem chunks_bounded (text : string) (size overlap : Z)
  (chunks : list string) (c : string) :
  0 < size → overlap < size →
  chunk_text text size overlap = Some chunks → c ∈ chunks →
  has_ink c = true ∧ 1 ≤ len c ≤ size.
Proof.
  intros Hsize Hlt Hc Hin.
  rewrite (chunk_text_spec text size overlap Hlt) in Hc.
  injection Hc as <-. unfold spec_chunk, spec_windows in Hin.
  apply list_elem_of_filter in Hin as [Hne Hin].
  apply list_elem_of_In, in_map_iff in Hin as (s & <- & Hs).
  apply list_elem_of_In, elem_of_spec_starts in Hs as (Hs & k & _ & ->).
  apply truthy_true in Hne. rewrite strip_ink in Hne. split; [done|].
  pose proof (has_ink_length _ Hne) as H1.
  assert (0 ≤ Z.of_nat k * (size - overlap)) as Hs0 by nia.
  revert Hs Hne H1 Hs0. generalize (Z.of_nat k * (size - overlap)). intros s.
  unfold slice, clamp_index, len. intros Hs Hne H1 Hs0.
  destruct (Z.ltb_spec s 0); [lia|].
  destruct (Z.ltb_spec (s + size) 0); [lia|].
  pose proof (substring_length_le text
    (Z.to_nat (Z.min s (Z.of_nat (String.length text))))
    (Z.to_nat (Z.min (s + size) (Z.of_nat (String.length text))
               - Z.min s (Z.of_nat (String.length text))))).
  lia.
Qed.

Lemma chunks_bounded_witness :
  has_ink "lo wo" = true ∧ 1 ≤ len "lo wo" ≤ 5.
Proof.
  apply (chunks_bounded "hello world" 5 2 ["hello"; "lo wo"; "world"; "ld"]);
    [lia|lia|reflexivity|].
  apply elem_of_cons. right. apply elem_of_cons. by left.
Defined.

(** X2. With [0 <= overlap < size] no character is lost but whitespace: every
    character of the text that is not whitespace lies in a returned chunk,
    the window that starts at the last multiple of [size - overlap] at or
    before it. *)
Theorem chunks_cover (text : string) (size overlap : Z)
  (chunks : list string) (i : nat) (c : ascii) :
  0 ≤ overlap → overlap < size →
  chunk_text text size overlap = Some chunks →
  String.get i text = Some c → isspace c = false →
  ∃ s : Z, 0 ≤ s ≤ Z.of_nat i ∧ Z.of_nat i < s + size
           ∧ slice text s (s + size) ∈ chunks.
Proof.
  intros Hov Hlt Hc Hget Hink.
  rewrite (chunk_text_spec text size overlap Hlt) in Hc.
  injection Hc as <-. pose proof (get_lt _ _ _ Hget) as Hi.
  set (step := size - overlap).
  set (k := Z.of_nat i / step).
  assert (0 < step) as Hstep by (unfold step; lia).
  assert (0 ≤ k) as Hk0 by (apply Z.div_pos; lia).
  assert (k * step ≤ Z.of_nat i < k * step + step) as Hk.
  { pose proof (Z.div_mod (Z.of_nat i) step ltac:(lia)).
    pose proof (Z.mod_pos_bound (Z.of_nat i) step Hstep). unfold k. nia. }
  exists (k * step). split; [nia|]. split; [unfold step in *; lia|].
  unfold spec_chunk, spec_windows. apply list_elem_of_filter. split.
  - apply truthy_true. rewrite strip_ink. unfold slice, clamp_index, len.
    destruct (Z.ltb_spec (k * step) 0); [nia|].
    destruct (Z.ltb_spec (k * step + size) 0); [nia|].
    apply (has_ink_substring_at text i _ _ c Hget Hink).
    unfold step in *. lia.
  - apply list_elem_of_In, in_map_iff. exists (k * step). split; [done|].
    apply list_elem_of_In, elem_of_spec_starts. fold step. unfold len.
    split; [lia|]. exists (Z.to_nat k). split; [nia|]. lia.
Qed.

Lemma chunks_cover_witness :
  ∃ s : Z, 0 ≤ s ≤ 7 ∧ 7 < s + 5 ∧ slice "hello world" s (s + 5)
                                    ∈ ["hello"; "lo wo"; "world"; "ld"].
Proof.
  apply (chunks_cover "hello world" 5 2 _ 7 "o"); [lia|lia|reflexivity..].
Defined.

Lemma blank_chunks (text : string) (size overlap : Z) :
  overlap < size → has_ink text = false →
  chunk_text text size overlap = Some [].
Proof.
  intros Hlt Hblank. rewrite (chunk_text_spec text size overlap Hlt).
  f_equal. unfold spec_chunk. apply elem_of_nil_inv. intros w Hw.
  apply list_elem_of_filter in Hw as [Hne Hw].
  apply truthy_true in Hne. rewrite strip_ink in Hne.
  unfold spec_windows in Hw.
  apply list_elem_of_In, in_map_iff in Hw as (s & <- & _).
  unfold slice in Hne. apply has_ink_substring_inv in Hne. congruence.
Qed.

(** X3. A text with no character but whitespace, the empty text among
    them, gives no chunk. *)
Theorem blank_text_no_chunk (text : string) (size overlap : Z) :
  overlap < size → has_ink text = false →
  chunk_text text size overlap = Some [].
Proof. apply blank_chunks. Qed.

Lemma blank_text_no_chunk_witness :
  chunk_text (String " " (String "010" " ")) 500 50 = Some [].
Proof. apply blank_text_no_chunk; [lia|reflexivity]. Defined.

(** X4. A text that is not blank and no longer than the size and than the step
    [size - overlap] gives one chunk, the text itself. *)
Theorem short_text_one_chunk (text : string) (size overlap : Z) :
  overlap < size → has_ink text = true →
  len text ≤ size → len text ≤ size - overlap →
  chunk_text text size overlap = Some [text].
Proof.
  intros Hlt Hink Hsize Hstep.
  rewrite (chunk_text_spec text size overlap Hlt).
  f_equal. unfold spec_chunk, spec_windows, spec_starts.
  pose proof (has_ink_length _ Hink) as H1.
  replace (Z.to_nat (len text)) with (S (String.length text - 1))
    by (unfold len; lia).
  cbn [seq map]. rewrite filter_cons_True by (unfold len; simpl; lia).
  rewrite (starts_beyond text size overlap Hlt) by lia.
  cbn [map]. change (Z.of_nat 0 * (size - overlap)) with 0.
  rewrite slice_all by lia.
  rewrite filter_cons_True; [done|].
  apply truthy_true. by rewrite strip_ink.
Qed.

Lemma short_text_one_chunk_witness :
  chunk_text "def f(): pass" 500 50 = Some ["def f(): pass"].
Proof. apply short_text_one_chunk; [lia|reflexivity|unfold len; simpl; lia..]. Defined.

End ChunkerMore.

(** ** More on [index_file] *)

Module IndexMore.
Import Inv IdFacts CollFacts IndexFacts IndexInvariants ScanFacts Scenario.

#[local] Arguments Chunker.chunk_text : simpl never.
#[local] Arguments PyPath.of_string : simpl never.
#[local] Arguments PyPath.to_string : simpl never.
#[local] Arguments PyPath.absolute : simpl never.
#[local] Arguments PyPath.name : simpl never.
#[local] Arguments FS.resolve : simpl never.
#[local] Arguments Coll.select : simpl never.
#[local] Arguments Coll.remove : simpl never.
#[local] Arguments Coll.insert_all : simpl never.
#[local] Arguments Coll.zip_records : simpl never.
#[local] Arguments Coll.valid_batch : simpl never.

(** X5. Two chunk ids are equal only for the same path and the same
    position: the ids of different files, and of different chunks of a file,
    never collide, whatever colons the path holds. *)
Theorem chunk_ids_distinct (p q : string) (i j : nat) :
  chunk_id p i = chunk_id q j ↔ p = q ∧ i = j.
Proof.
  split; [apply chunk_id_inj|]. by intros [-> ->].
Qed.

(** X6. A path that does not exist, or that names a directory, is skipped
    as "not a file", with or without [force]; no collaborator is called and
    the collection is left alone. *)
Theorem index_file_not_a_file (e : env) (file_path : string) (force : bool)
  (w : world) :
  FS.is_file (fs e) (PyPath.of_string file_path) = false →
  index_file e file_path force w = (Ok (Skipped "not a file"), w).
Proof.
  intros H. unfold index_file. rewrite H. by rewrite orb_true_r.
Qed.

Lemma index_file_not_a_file_witness :
  index_file notes_short "/w" true fresh = (Ok (Skipped "not a file"), fresh)
  ∧ index_file notes_short "/w/none.txt" false fresh
    = (Ok (Skipped "not a file"), fresh).
Proof.
  split; apply index_file_not_a_file; reflexivity.
Defined.

(** X7. A file whose text is blank is skipped as "empty" and nothing is
    stored for it. Without [force], when the collection holds records of
    the path under another fingerprint, those records are deleted first: the
    file leaves the index. *)
Theorem blank_file_leaves_index (e : env) (file_path text h : string)
  (w : world) :
  let p := PyPath.of_string file_path in
  let abs := PyPath.to_string (PyPath.absolute (FS.cwd (fs e)) p) in
  let existing := records_of abs (store w) in
  FS.resolve (fs e) p = Some (FS.File (Ok text) (Ok h)) →
  PyStr.has_ink text = false →
  (∀ r rest, existing = r :: rest → hash (meta r) ≠ h) →
  ∃ w',
    index_file e file_path false w = (Ok (Skipped "empty"), w')
    ∧ store w' = Coll.remove (map id existing) (store w)
    ∧ records_of abs (store w') = []
    ∧ trace w'
      = trace w ++ [EGet (Some abs)]
        ++ match existing with [] => [] | _ => [EDelete (map id existing)] end
        ++ [EChunk text].
Proof.
  intros p abs existing Hfile Hblank Hchanged.
  assert (Chunker.chunk_text text 500 50 = Some []) as Hchunks
    by (apply ChunkerMore.blank_chunks; [lia|done]).
  exists {| store := Coll.remove (map id existing) (store w);
            trace := trace w ++ [EGet (Some abs)]
                     ++ match existing with
                        | [] => []
                        | _ => [EDelete (map id existing)]
                        end
                     ++ [EChunk text] |}.
  split; [|split; [done|split; [|done]]].
  - enter_index_file. fold p. rewrite Hfile. simpl. fold abs.
    unfold Coll.get, Coll.delete, chunk_call. run_M.
    fold (records_of abs (store w)). fold existing.
    destruct existing as [|r rest] eqn:Hex; simpl.
    + rewrite Hchunks. simpl. by rewrite remove_nil, <- app_assoc.
    + rewrite bool_decide_false by (by eapply Hchanged).
      simpl. rewrite Hchunks. simpl. by rewrite <- !app_assoc.
  - simpl. apply select_remove_own.
Qed.

Lemma blank_file_leaves_index_witness :
  ∃ w',
    index_file (env_of [("notes.txt", text_file "  " "md5-blank")] flat_encode)
      "/w/notes.txt" false (after notes_short false fresh)
    = (Ok (Skipped "empty"), w')
    ∧ store (after notes_short false fresh)
      = new_records "/w/notes.txt" "notes.txt" "md5-short" ["short"] [[0%float]]
    ∧ store w' = [].
Proof.
  destruct (blank_file_leaves_index
              (env_of [("notes.txt", text_file "  " "md5-blank")] flat_encode)
              "/w/notes.txt" "  " "md5-blank" (after notes_short false fresh))
    as (w' & H1 & H2 & _); [reflexivity|reflexivity| |].
  - intros r rest H. vm_compute in H. injection H as <- _. discriminate.
  - exists w'. split; [exact H1|]. split; [reflexivity|].
    rewrite H2. reflexivity.
Defined.







(** X9. [index_file] and [index_directory] keep the collection well formed:
    no id twice, and every record under the id of its path and position;
    with [force] or without it, and also when the call raises. *)
Theorem pipeline_keeps_well_formed (e : env) (w : world) :
  wf_store (store w) →
  (∀ file_path force o w',
     index_file e file_path force w = (o, w') → wf_store (store w'))
  ∧ (∀ dir_path extensions force o w',
       index_directory e dir_path extensions force w = (o, w') →
       wf_store (store w')).
Proof.
  intros Hwf. split.
  - intros file_path force o w' H. by eapply wf_store_index_file.
  - intros dir_path extensions force o w' H. unfold index_directory in H.
    eapply (scan_invariant (λ w, wf_store (store w))); [|exact Hwf|exact H].
    intros fp w0 o0 w1 H0 H1. by eapply wf_store_index_file.
Qed.

Lemma pipeline_keeps_well_formed_witness :
  wf_store (store (after notes_long true (after notes_short false fresh))).
Proof.
  destruct (pipeline_keeps_well_formed notes_long
              (after notes_short false fresh)) as [H _].
  - vm_compute. split; repeat constructor.
    intros H. apply elem_of_nil in H. exact H.
  - apply (H "/w/notes.txt" true
             (fst (index_file notes_long "/w/notes.txt" true
                     (after notes_short false fresh)))).
    apply surjective_pairing.
Defined.

(** X10. Without [force], [index_file] and [index_directory] keep one hash
    per path: when all records of a path carry one hash before the call,
    they do after it, also when the call raises between the delete and the
    add. *)
Theorem no_force_keeps_one_hash (e : env) (w : world) :
  hash_consistent (store w) →
  (∀ file_path o w',
     index_file e file_path false w = (o, w') → hash_consistent (store w'))
  ∧ (∀ dir_path extensions o w',
       index_directory e dir_path extensions false w = (o, w') →
       hash_consistent (store w')).
Proof.
  intros Hc. split.
  - intros file_path o w' H. by eapply hash_consistent_index_file.
  - intros dir_path extensions o w' H. unfold index_directory in H.
    eapply (scan_invariant (λ w, hash_consistent (store w))); [|exact Hc|exact H].
    intros fp w0 o0 w1 H0 H1. by eapply hash_consistent_index_file.
Qed.

Lemma no_force_keeps_one_hash_witness :
  hash_consistent (store (after notes_long false (after notes_short false fresh))).
Proof.
  destruct (no_force_keeps_one_hash notes_long
              (after notes_short false fresh)) as [H _].
  - destruct (no_force_keeps_one_hash notes_short fresh) as [H0 _].
    + intros r1 r2 H. by apply elem_of_nil in H.
    + apply (H0 "/w/notes.txt"
               (fst (index_file notes_short "/w/notes.txt" false fresh))).
      apply surjective_pairing.
  - apply (H "/w/notes.txt"
             (fst (index_file notes_long "/w/notes.txt" false
                     (after notes_short false fresh)))).
    apply surjective_pairing.
Defined.

(** What [add] appends are records of the batch under ids the collection
    did not have. *)
Lemma insert_all_added (rs : list record) : ∀ s : list record,
  ∃ added, Coll.insert_all rs s = s ++ added
    ∧ ∀ r, r ∈ added → r ∈ rs ∧ (id r ∉ map id s).
Proof.
  induction rs as [|r rs IH]; intros s.
  - exists []. split; [by rewrite app_nil_r|].
    intros r Hr. by apply elem_of_nil in Hr.
  - unfold Coll.insert_all. fold Coll.insert_all.
    destruct (decide (id r ∈ map id s)) as [Hin|Hnin].
    + destruct (IH s) as (added & -> & Hadded). exists added.
      split; [done|]. intros x Hx. destruct (Hadded x Hx) as [H1 H2].
      split; [apply elem_of_cons; by right|done].
    + destruct (IH (s ++ [r])) as (added & -> & Hadded).
      exists (r :: added). split; [by rewrite <- app_assoc|].
      intros x Hx. apply elem_of_cons in Hx as [->|Hx].
      * split; [apply elem_of_cons; by left|done].
      * destruct (Hadded x Hx) as [H1 H2].
        split; [apply elem_of_cons; by right|].
        intros Hin. apply H2. rewrite map_app. apply elem_of_app. by left.
Qed.

(** X11. With [force], [index_file] deletes nothing: the collection after
    the call is the collection before it, followed by what the call added,
    which are records of the path of the file under ids the collection did
    not have. A record stored under an id stays as it is. *)
Theorem force_deletes_nothing (e : env) (file_path : string) (w w' : world)
  (o : outcome file_result) :
  index_file e file_path true w = (o, w') →
  ∃ added, store w' = store w ++ added
    ∧ ∀ r, r ∈ added →
        path (meta r)
        = PyPath.to_string
            (PyPath.absolute (FS.cwd (fs e)) (PyPath.of_string file_path))
        ∧ (id r ∉ map id (store w)).
Proof.
  intros H. apply index_file_store in H.
  assert (∀ abs name h cs es,
             ∃ added,
               Coll.insert_all (new_records abs name h cs es) (store w)
               = store w ++ added
               ∧ ∀ r, r ∈ added →
                   path (meta r) = abs ∧ (id r ∉ map id (store w))) as Hadd.
  { intros abs name h cs es.
    destruct (insert_all_added (new_records abs name h cs es) (store w))
      as (added & Heq & Hadded).
    exists added. split; [done|]. intros r Hr.
    destruct (Hadded r Hr) as [H1 H2]. split; [|done].
    apply new_records_shape in H1 as (i & _ & ->). done. }
  destruct H as [->|[[[=] _]|[(h & cs & es & [[=]|Hnil] & ->)
                             |(h & cs & es & _ & ->)]]].
  - exists []. split; [by rewrite app_nil_r|].
    intros r Hr. by apply elem_of_nil in Hr.
  - rewrite Hnil. simpl. rewrite remove_nil. apply Hadd.
  - apply Hadd.
Qed.

Lemma force_deletes_nothing_witness :
  ∃ added,
    store (after notes_long true (after notes_short false fresh))
    = store (after notes_short false fresh) ++ added
    ∧ ∀ r, r ∈ added →
        path (meta r) = "/w/notes.txt"
        ∧ (id r ∉ map id (store (after notes_short false fresh))).
Proof.
  apply (force_deletes_nothing notes_long "/w/notes.txt"
           (after notes_short false fresh) _
           (fst (index_file notes_long "/w/notes.txt" true
                   (after notes_short false fresh)))).
  apply surjective_pairing.
Defined.

End IndexMore.

(** ** Paths and their strings *)

Module PathMore.
Import PathShape.

Lemma append_cons (c : ascii) (s t : string) :
  String c s +:+ t = String c (s +:+ t).
Proof. reflexivity. Qed.

Lemma append_empty_r (s : string) : s +:+ "" = s.
Proof. induction s as [|c s IH]; [done|]. by rewrite append_cons, IH. Qed.

Lemma rev_app_rev_app (s : string) : ∀ a b : string,
  String.rev_app (String.rev_app s a) b = String.rev_app a (s +:+ b).
Proof.
  induction s as [|c s IH]; intros a b; [done|].
  rewrite append_cons. cbn [String.rev_app]. by rewrite IH.
Qed.

Lemma rev_rev_app (s : string) : String.rev (String.rev_app s "") = s.
Proof.
  unfold String.rev. rewrite rev_app_rev_app. cbn [String.rev_app].
  apply append_empty_r.
Qed.

(** Up to the next slash, [split_slash] collects the characters. *)
Lemma split_slash_segment (seg : string) : ∀ cur rest : string,
  "/"%char ∉ list_ascii_of_string seg →
  PyPath.split_slash cur (seg +:+ rest)
  = PyPath.split_slash (String.rev_app seg cur) rest.
Proof.
  induction seg as [|c seg IH]; intros cur rest Hno; [done|].
  simpl in Hno. apply not_elem_of_cons in Hno as [Hc Hno].
  rewrite append_cons. cbn [PyPath.split_slash].
  destruct (Ascii.eqb_spec c "/") as [->|_]; [done|].
  by rewrite IH.
Qed.

Lemma split_slash_last (seg : string) :
  "/"%char ∉ list_ascii_of_string seg →
  PyPath.split_slash "" seg = [seg].
Proof.
  intros Hno. rewrite <- (append_empty_r seg) at 1.
  rewrite split_slash_segment by done. cbn [PyPath.split_slash].
  by rewrite rev_rev_app.
Qed.

Lemma join_cons (sep x y : string) (l : list string) :
  PyStr.join sep (x :: y :: l) = x +:+ sep +:+ PyStr.join sep (y :: l).
Proof. reflexivity. Qed.

Lemma split_slash_slash (cur rest : string) :
  PyPath.split_slash cur ("/" +:+ rest)
  = String.rev cur :: PyPath.split_slash "" rest.
Proof. reflexivity. Qed.

(** Splitting what [join] made gives the segments back. *)
Lemma split_join (segs : list string) :
  Forall segment segs → segs ≠ [] →
  PyPath.split_slash "" (PyStr.join "/" segs) = segs.
Proof.
  induction 1 as [|x l [_ [_ Hx]] Hl IH]; intros Hne; [done|].
  destruct l as [|y l].
  - simpl. by apply split_slash_last.
  - rewrite join_cons, split_slash_segment, split_slash_slash by done.
    rewrite rev_rev_app. by rewrite IH.
Qed.

Lemma keep_segments (segs : list string) :
  Forall segment segs →
  filter (λ x, x ≠ EmptyString ∧ x ≠ ".") segs = segs.
Proof.
  induction 1 as [|x l [H1 [H2 _]] Hl IH]; [done|].
  rewrite filter_cons_True by done. by rewrite IH.
Qed.

(** The first character of a segment is not a slash. *)
Lemma segment_head (x : string) :
  segment x → ∃ c t, x = String c t ∧ c ≠ "/"%char.
Proof.
  intros (Hne & _ & Hno). destruct x as [|c t]; [done|].
  exists c, t. split; [done|]. intros ->. apply Hno. simpl.
  apply elem_of_cons. by left.
Qed.

Lemma join_head (segs : list string) :
  Forall segment segs →
  PyStr.join "/" segs = EmptyString
  ∨ ∃ c t, PyStr.join "/" segs = String c t ∧ c ≠ "/"%char.
Proof.
  intros H. destruct H as [|x l Hx Hl]; [by left|]. right.
  destruct (segment_head x Hx) as (c & t & -> & Hc).
  destruct l; [by exists c, t|].
  rewrite join_cons, append_cons. by eexists c, _.
Qed.

Lemma root_of_plain (c : ascii) (t : string) :
  c ≠ "/"%char → PyPath.root_of (String c t) = None.
Proof.
  intros Hc. destruct c as [[] [] [] [] [] [] [] []]; try reflexivity.
  by destruct Hc.
Qed.

Lemma root_of_one (c : ascii) (t : string) :
  c ≠ "/"%char → PyPath.root_of (String "/" (String c t)) = Some "/".
Proof.
  intros Hc. destruct c as [[] [] [] [] [] [] [] []]; try reflexivity.
  by destruct Hc.
Qed.

Lemma root_of_two (c : ascii) (t : string) :
  c ≠ "/"%char →
  PyPath.root_of (String "/" (String "/" (String c t))) = Some "//".
Proof.
  intros Hc. destruct c as [[] [] [] [] [] [] [] []]; try reflexivity.
  by destruct Hc.
Qed.

Lemma segment_not_root (x : string) : segment x → PyPath.is_root x = false.
Proof.
  intros Hx. destruct (segment_head x Hx) as (c & t & -> & Hc).
  unfold PyPath.is_root. rewrite !bool_decide_false; [done|..];
    intros [= -> _]; by destruct Hc.
Qed.

(** X12. [Path(str(p))] is [p]: a path made of a root, or none, and of
    segments is read back from its string part by part. So the string
    [index_directory] hands to [index_file] names there the path that the
    scan tested. *)
Theorem path_round_trip (p : PyPath.t) :
  built p → PyPath.of_string (PyPath.to_string p) = p.
Proof.
  intros [Hsegs|(r & segs & -> & Hr & Hsegs)].
  - destruct p as [|x l]; [reflexivity|].
    assert (segment x) as Hx by (by inversion Hsegs).
    unfold PyPath.to_string. rewrite (segment_not_root x Hx).
    unfold PyPath.of_string. rewrite split_join, keep_segments by done.
    destruct (join_head (x :: l) Hsegs) as [H|(c & t & -> & Hc)].
    + destruct (segment_head x Hx) as (c & t & -> & _).
      destruct l; [done|]. by rewrite join_cons, append_cons in H.
    + by rewrite root_of_plain.
  - unfold PyPath.to_string. rewrite Hr. unfold PyPath.is_root in Hr.
    apply orb_true_iff in Hr as [Hr|Hr]; apply bool_decide_eq_true in Hr;
      subst r; unfold PyPath.of_string.
    + rewrite split_slash_slash. change (String.rev "") with EmptyString.
      destruct segs as [|x l].
      * reflexivity.
      * rewrite split_join by done.
        rewrite filter_cons_False by (intros [? _]; done).
        rewrite keep_segments by done.
        destruct (join_head (x :: l) Hsegs) as [H|(c & t & -> & Hc)].
        -- destruct (segment_head x ltac:(by inversion Hsegs))
             as (c & t & -> & _).
           destruct l; [done|]. by rewrite join_cons, append_cons in H.
        -- change ("/" +:+ String c t) with (String "/" (String c t)).
           by rewrite root_of_one.
    + change ("//" +:+ PyStr.join "/" segs)
        with ("/" +:+ "/" +:+ PyStr.join "/" segs).
      rewrite !split_slash_slash. change (String.rev "") with EmptyString.
      destruct segs as [|x l].
      * reflexivity.
      * rewrite split_join by done.
        rewrite !filter_cons_False by (intros [? _]; done).
        rewrite keep_segments by done.
        destruct (join_head (x :: l) Hsegs) as [H|(c & t & -> & Hc)].
        -- destruct (segment_head x ltac:(by inversion Hsegs))
             as (c & t & -> & _).
           destruct l; [done|]. by rewrite join_cons, append_cons in H.
        -- change ("/" +:+ "/" +:+ String c t)
             with (String "/" (String "/" (String c t))).
           by rewrite root_of_two.
Qed.

Lemma path_round_trip_witness :
  PyPath.of_string (PyPath.to_string ["/"; "w"; "notes.txt"])
  = ["/"; "w"; "notes.txt"].
Proof.
  apply path_round_trip. right. exists "/", ["w"; "notes.txt"].
  split; [reflexivity|]. split; [reflexivity|].
  repeat constructor; try discriminate;
    (intros H; repeat (apply elem_of_cons in H as [H|H]; [discriminate|]);
     by apply elem_of_nil in H).
Defined.

End PathMore.

(** ** More on the directory scan *)

Module ScanMore.
Import Inv CollFacts IndexInvariants ScanFacts Scenario.

#[local] Arguments index_file : simpl never.





(** X14. With an empty list of extensions the scan has no candidate:
    [index_directory] calls nothing and returns the empty results, whatever
    the directory holds. The default list is taken only for a missing
    list. *)
Theorem no_extension_no_candidate (e : env) (dir_path : string) (force : bool)
  (w : world) :
  index_directory e dir_path (Some []) force w
  = (Ok {| indexed := 0; skipped := 0; files := [] |}, w).
Proof.
  unfold index_directory. simpl default.
  generalize (FS.rglob (fs e) (PyPath.of_string dir_path)).
  generalize {| indexed := 0; skipped := 0; files := [] |}.
  intros results paths. induction paths as [|p rest IH]; [done|].
  rewrite scan_pass; [done|]. unfold candidate, wanted.
  rewrite (bool_decide_false (_ ∈ [])) by apply not_elem_of_nil.
  by rewrite andb_false_r.
Qed.

Lemma lower_char_twice (c : ascii) :
  PyStr.lower_char (PyStr.lower_char c) = PyStr.lower_char c.
Proof. destruct c as [[] [] [] [] [] [] [] []]; reflexivity. Qed.

Lemma lower_twice (s : string) : PyStr.lower (PyStr.lower s) = PyStr.lower s.
Proof.
  induction s as [|c s IH]; [done|]. simpl. by rewrite lower_char_twice, IH.
Qed.

(** X15. The suffix of the file is put in lower case, the extensions of the
    list are taken as they are: an extension that is not in lower case, such
    as [.PY], matches no file, and the list without such entries wants the
    same files. *)
Theorem extensions_need_lower_case (e : env) (extensions : list string)
  (p : PyPath.t) :
  wanted e extensions p
  = wanted e (filter (λ x, PyStr.lower x = x) extensions) p.
Proof.
  unfold wanted. f_equal. apply bool_decide_ext.
  rewrite list_elem_of_filter. split; [|by intros [_ ?]].
  intros H. split; [apply lower_twice|done].
Qed.

End ScanMore.

(** ** More on search and on the commands *)

Module CommandMore.
Import Inv CollFacts Scenario Scenes.

Lemma format_loop_world (results : query_result) (range : list nat) :
  ∀ (formatted : list hit) (w w' : world) (o : outcome (list hit)),
    format_loop results range formatted w = (o, w') → w' = w.
Proof.
  induction range as [|i range IH]; intros formatted w w' o H.
  - by injection H as _ <-.
  - simpl in H. unfold bind, format_hit, item, bind, ret, lift in H.
    repeat (let E := fresh in
            destruct (_ !! _) eqn:E in H; [|by injection H as _ <-]).
    by apply IH in H.
Qed.

(** X16. [search] only reads: whatever it comes to, the collection is
    after the call what it was before it, and the calls made are one call of
    the embedder and, when that returned, one query. *)
Theorem search_only_reads (e : env) (query_text : string) (limit : Z)
  (w w' : world) (o : outcome (list hit)) :
  search e query_text limit w = (o, w') →
  store w' = store w
  ∧ (trace w' = trace w ++ [EEncode [query_text]]
     ∨ trace w' = trace w ++ [EEncode [query_text]; EQuery limit]).
Proof.
  unfold search, embed, query, bind, ret, lift, emit, get_store. simpl.
  destruct (encode e [query_text]) as [emb| |]; simpl;
    [|intros [= _ <-]; simpl; auto..].
  destruct (nearest e (store w) emb limit) as [results| |]; simpl;
    [|intros [= _ <-]; simpl; rewrite <- app_assoc; auto..].
  intros H.
  assert (w' = {| store := store w;
                  trace := (trace w ++ [EEncode [query_text]])
                           ++ [EQuery limit] |}) as ->.
  { destruct (q_ids results) as [|[|i ids] t];
      [by injection H as _ <-..|].
    by apply format_loop_world in H. }
  simpl. rewrite <- app_assoc. auto.
Qed.

Lemma search_only_reads_witness :
  store (snd (search (answering two_rows) "what is a" 5
                (after notes_short false fresh)))
  = store (after notes_short false fresh).
Proof.
  apply (search_only_reads (answering two_rows) "what is a" 5
           (after notes_short false fresh) _
           (fst (search (answering two_rows) "what is a" 5
                   (after notes_short false fresh)))).
  apply surjective_pairing.
Defined.

Lemma remove_all (s : list record) : Coll.remove (map id s) s = [].
Proof.
  apply elem_of_nil_inv. intros r Hr. apply elem_of_remove in Hr as [Hid Hr].
  apply Hid. apply elem_of_map. by exists r.
Qed.

(** X17. After [init], a [clear] command empties the collection: it
    returns the plain "ok" response, and a [stats] command after it counts
    0 records, whatever the collection held. *)
Theorem clear_empties (e : env) (c : command) (p : process)
  (s : list record) :
  _collection p = Some s → cmd c = Some "clear" →
  ∃ p',
    handle_command e c p = (Ok ROk, p')
    ∧ _collection p' = Some []
    ∧ ∀ c', cmd c' = Some "stats" →
        fst (handle_command e c' p') = Ok (RCount 0).
Proof.
  intros Hs Hc. unfold handle_command. rewrite Hc, Hs. simpl.
  unfold run, on_collection, Coll.get, Coll.delete, bind, ret, emit,
    get_store, put_store. simpl.
  destruct s as [|r s]; simpl.
  - eexists. split; [reflexivity|]. split; [reflexivity|].
    intros c' Hc'. unfold handle_command. by rewrite Hc'.
  - eexists. split; [reflexivity|]. simpl.
    change (id r :: map id s) with (map id (r :: s)). rewrite remove_all.
    split; [reflexivity|].
    intros c' Hc'. unfold handle_command. by rewrite Hc'.
Qed.

Lemma clear_empties_witness :
  ∃ p',
    handle_command notes_short (request "clear") serving = (Ok ROk, p')
    ∧ _collection serving
      = Some (new_records "/w/notes.txt" "notes.txt" "md5-short" ["short"]
                [[0%float]])
    ∧ _collection p' = Some []
    ∧ fst (handle_command notes_short (request "stats") p') = Ok (RCount 0).
Proof.
  destruct (clear_empties notes_short (request "clear") serving _
              eq_refl eq_refl) as (p' & H1 & H2 & H3).
  exists p'. split; [exact H1|]. split; [reflexivity|]. split; [exact H2|].
  by apply H3.
Defined.

(** X18. A request whose [cmd] is none of the seven commands, or that has
    no [cmd] key at all, is answered with the error "unknown command: "
    followed by the command given (nothing, for a missing key); the process
    is left as it was. *)
Theorem unknown_command (e : env) (c : command) (p : process) :
  default EmptyString (cmd c)
  ∉ ["init"; "index_file"; "index_dir"; "search"; "stats"; "clear"; "quit"] →
  handle_command e c p
  = (Ok (RError ("unknown command: " +:+ default EmptyString (cmd c))), p).
Proof.
  intros H. unfold handle_command.
  rewrite !bool_decide_false; [done|intros Heq; apply H; rewrite Heq..].
  all: repeat (first [apply list_elem_of_here|apply list_elem_of_further]).
Qed.

Lemma unknown_command_witness :
  handle_command notes_short (request "reindex") serving
  = (Ok (RError "unknown command: reindex"), serving)
  ∧ handle_command notes_short
      {| cmd := None; c_path := None; c_force := None; c_extensions := None;
         c_query := None; c_limit := None; c_db_path := None |} serving
    = (Ok (RError "unknown command: "), serving).
Proof.
  split; apply unknown_command; simpl;
    intros H; repeat (apply elem_of_cons in H as [H|H]; [discriminate|]);
    by apply elem_of_nil in H.
Defined.

(** X19. After [init], a request for [index_file] or [index_dir] without
    the key [path], and a request for [search] without the key [query],
    raise [KeyError] on that key; no collaborator is called and the process
    is left as it was. *)
Theorem missing_key_raises (e : env) (c : command) (p : process)
  (s : list record) :
  _collection p = Some s →
  (cmd c = Some "index_file" ∨ cmd c = Some "index_dir" →
   c_path c = None → handle_command e c p = (Raise (KeyError "path"), p))
  ∧ (cmd c = Some "search" →
     c_query c = None → handle_command e c p = (Raise (KeyError "query"), p)).
Proof.
  intros Hs. unfold handle_command. rewrite Hs. split.
  - intros [Hc|Hc] Hp; rewrite Hc, Hp; reflexivity.
  - intros Hc Hq. rewrite Hc, Hq. reflexivity.
Qed.

Lemma missing_key_raises_witness :
  handle_command notes_short (index_request None) serving
  = (Raise (KeyError "path"), serving)
  ∧ handle_command notes_short (request "search") serving
    = (Raise (KeyError "query"), serving).
Proof.
  destruct (missing_key_raises notes_short (index_request None) serving _
              eq_refl) as [H1 _].
  destruct (missing_key_raises notes_short (request "search") serving _
              eq_refl) as [_ H2].
  split; [apply H1; auto|apply H2; auto].
Defined.

(** X20. A second [init] does not open anything: when the collection
    handle is set, the command keeps it, whatever [db_path] the request
    names, and returns that [db_path] with the number of records of the
    collection that is open. *)
Theorem init_keeps_collection (e : env) (c : command) (p : process)
  (s : list record) :
  let db_path := default (home_db e) (c_db_path c) in
  _collection p = Some s → cmd c = Some "init" →
  makedirs e db_path = Ok tt →
  _embedder p = true ∨ load_embedder e = Ok tt →
  handle_command e c p
  = (Ok (RInit db_path (length s)),
     {| _collection := Some s; _embedder := true;
        calls := calls p ++ [ECount] |}).
Proof.
  intros db_path Hs Hc Hm Hl. unfold handle_command. rewrite Hc. simpl.
  unfold handle_init. fold db_path. rewrite Hm, Hs.
  assert ((if _embedder p then Ok tt else load_embedder e) = Ok tt) as ->
    by (destruct Hl as [-> | ->]; [done|by destruct (_embedder p)]).
  reflexivity.
Qed.

Lemma init_keeps_collection_witness :
  handle_command notes_short (init_request "/tmp/elsewhere") serving
  = (Ok (RInit "/tmp/elsewhere" 1),
     {| _collection := _collection serving; _embedder := true;
        calls := [ECount] |}).
Proof.
  apply (init_keeps_collection notes_short (init_request "/tmp/elsewhere")
           serving _ eq_refl eq_refl eq_refl).
  by left.
Defined.

End CommandMore.

(** ** The transport loop *)

Module TransportMore.
Import Transport Scenario Scenes.

#[local] Arguments handle_command : simpl never.

Lemma quit_says_bye (e : env) (c : command) (p : process) :
  cmd c = Some "quit" → handle_command e c p = (Ok RBye, p).
Proof. intros H. unfold handle_command. by rewrite H. Qed.

Lemma serve_replies (str : exn → string) (e : env) (events : list incoming) :
  ∀ (p : process) (out : list message),
    ended (serve str e events p out) ≠ Stuck →
    sent (serve str e events p out)
    = out ++ map Reply (answers str e (reached events) p)
    ∧ length (answers str e (reached events) p) = length (reached events).
Proof.
  induction events as [|ev rest IH]; intros p out H.
  - simpl. by rewrite app_nil_r.
  - destruct ev as [| | |[c|]]; simpl in *; try by apply IH.
    + by rewrite app_nil_r.
    + destruct (bool_decide (cmd c = Some "quit")) eqn:Hq.
      * apply bool_decide_eq_true in Hq.
        rewrite (quit_says_bye e c p Hq). simpl.
        by rewrite (quit_says_bye e c p Hq).
      * simpl. destruct (handle_command e c p) as [[r|x|] p']; [..|done];
          simpl; destruct (IH p' _ H) as [-> Hlen];
          rewrite <- app_assoc; simpl; by rewrite Hlen.
Qed.

(** X21. After the ready signal, [main] sends one reply for every request
    it gets to (those before the first end of file, up to the first
    [quit]), in their order, and nothing for a timeout, a failed read or a
    null value. The reply to a request is what [handle_command] returns for
    it on the process the requests before it left; when [handle_command]
    raises, the reply is the error dictionary with the text of the
    exception, and the loop goes on with the next request. This holds as
    long as no [handle_command] fails to return. *)
Theorem main_replies_to_each (str : exn → string) (e : env)
  (events : list incoming) :
  ended (main str e events) ≠ Stuck →
  sent (main str e events)
  = Ready :: map Reply (answers str e (reached events) boot)
  ∧ length (answers str e (reached events) boot) = length (reached events).
Proof. intros H. by apply (serve_replies str e events boot [Ready]). Qed.

Lemma main_replies_to_each_witness :
  sent (main exn_text notes_short
          [GetTimeout; GetValue (Some (request "stats"));
           GetValue (Some (init_request "/tmp/db")); GetValue None;
           GetValue (Some (index_request None)); GetFailure;
           GetValue (Some (index_request (Some "/w/notes.txt")));
           GetValue (Some (request "quit"));
           GetValue (Some (request "stats"))])
  = [Ready;
     Reply (RError "not initialized");
     Reply (RInit "/tmp/db" 0);
     Reply (RError "'path'");
     Reply (RFile (Indexed 1 "/w/notes.txt"));
     Reply RBye].
Proof.
  destruct (main_replies_to_each exn_text notes_short
              [GetTimeout; GetValue (Some (request "stats"));
               GetValue (Some (init_request "/tmp/db")); GetValue None;
               GetValue (Some (index_request None)); GetFailure;
               GetValue (Some (index_request (Some "/w/notes.txt")));
               GetValue (Some (request "quit"));
               GetValue (Some (request "stats"))])
    as [H _]; [vm_compute; discriminate|].
  rewrite H. vm_compute. reflexivity.
Defined.

Lemma serve_stopped (str : exn → string) (e : env) (events more : list incoming) :
  ∀ (p : process) (out : list message),
    ended (serve str e events p out) ≠ Waiting →
    serve str e (events ++ more) p out = serve str e events p out.
Proof.
  induction events as [|ev rest IH]; intros p out H; [done|].
  destruct ev as [| | |[c|]]; simpl in *; try by apply IH.
  - done.
  - destruct (handle_command e c p) as [[r|x|] p']; [|by apply IH|done].
    destruct (bool_decide (cmd c = Some "quit")); [done|by apply IH].
Qed.

(** X22. Once the loop is left, by [quit] or by the end of the input, or is
    held in a call that does not return, nothing that arrives later is
    handled: no further reply is sent and the process stays as it is. *)
Theorem main_handles_nothing_after_stop (str : exn → string) (e : env)
  (events more : list incoming) :
  ended (main str e events) ≠ Waiting →
  main str e (events ++ more) = main str e events.
Proof. intros H. by apply serve_stopped. Qed.

Lemma main_handles_nothing_after_stop_witness :
  main exn_text notes_short
    ([GetValue (Some (request "quit"))]
     ++ [GetValue (Some (init_request "/tmp/db"))])
  = {| sent := [Ready; Reply RBye]; proc := boot; ended := Broke |}.
Proof.
  rewrite main_handles_nothing_after_stop; [reflexivity|].
  vm_compute. discriminate.
Defined.

End TransportMore.

(** ** Failures on the way *)

Module FailureMore.
Import Inv IdFacts CollFacts IndexFacts Scenario Scenes.

#[local] Arguments Chunker.chunk_text : simpl never.
#[local] Arguments PyPath.of_string : simpl never.
#[local] Arguments PyPath.to_string : simpl never.
#[local] Arguments PyPath.absolute : simpl never.
#[local] Arguments PyPath.name : simpl never.
#[local] Arguments FS.resolve : simpl never.
#[local] Arguments Coll.select : simpl never.
#[local] Arguments Coll.remove : simpl never.
#[local] Arguments Coll.insert_all : simpl never.
#[local] Arguments Coll.zip_records : simpl never.
#[local] Arguments Coll.valid_batch : simpl never.

(** X23. The replacement is not atomic. When a changed file is indexed
    again without [force] and the embedder raises, the old records of the
    path are deleted already: [index_file] raises the exception of the
    embedder and the collection holds no record of the path. *)
Theorem failed_embedding_loses_records (e : env)
  (file_path text h : string) (chunks : list string) (x : exn) (w : world)
  (r : record) (rest : list record) :
  let p := PyPath.of_string file_path in
  let abs := PyPath.to_string (PyPath.absolute (FS.cwd (fs e)) p) in
  FS.resolve (fs e) p = Some (FS.File (Ok text) (Ok h)) →
  records_of abs (store w) = r :: rest → hash (meta r) ≠ h →
  Chunker.chunk_text text 500 50 = Some chunks → chunks ≠ [] →
  encode e chunks = Raise x →
  ∃ w',
    index_file e file_path false w = (Raise x, w')
    ∧ store w' = Coll.remove (map id (r :: rest)) (store w)
    ∧ records_of abs (store w') = [].
Proof.
  intros p abs Hfile Hex Hh Hchunks Hne Henc.
  exists {| store := Coll.remove (map id (r :: rest)) (store w);
            trace := trace w ++ [EGet (Some abs); EDelete (map id (r :: rest));
                                 EChunk text; EEncode chunks] |}.
  split; [|split; [done|]].
  - enter_index_file. fold p. rewrite Hfile. simpl. fold abs.
    unfold Coll.get, Coll.delete, Coll.add, chunk_call, embed. run_M.
    fold (records_of abs (store w)). rewrite Hex. simpl.
    rewrite bool_decide_false by done. simpl. rewrite Hchunks. simpl.
    destruct chunks as [|c cs]; [done|]. rewrite Henc.
    simpl. by rewrite <- !app_assoc.
  - change (records_of abs (Coll.remove (map id (r :: rest)) (store w)) = []).
    rewrite <- Hex. apply select_remove_own.
Qed.

Lemma failed_embedding_loses_records_witness :
  ∃ w',
    index_file
      (env_of [("notes.txt", text_file "boom" "md5-boom")] touchy_encode)
      "/w/notes.txt" false (after notes_short false fresh)
    = (Raise (RuntimeError "encode failed"), w')
    ∧ store (after notes_short false fresh)
      = new_records "/w/notes.txt" "notes.txt" "md5-short" ["short"] [[0%float]]
    ∧ store w' = [].
Proof.
  destruct (failed_embedding_loses_records
              (env_of [("notes.txt", text_file "boom" "md5-boom")] touchy_encode)
              "/w/notes.txt" "boom" "md5-boom" ["boom"]
              (RuntimeError "encode failed") (after notes_short false fresh)
              {| id := "/w/notes.txt::0"; embedding := [0%float];
                 document := "short";
                 meta := {| path := "/w/notes.txt"; filename := "notes.txt";
                            chunk_idx := 0; hash := "md5-short" |} |} [])
    as (w' & H1 & H2 & _);
    [reflexivity|reflexivity|discriminate|reflexivity|discriminate
    |reflexivity|].
  exists w'. split; [exact H1|]. split; [reflexivity|].
  rewrite H2. reflexivity.
Defined.

(** X24. An [init] that fails before the handle is set, while the
    directory is made, the model is loaded or the database is opened, raises
    that exception and leaves the process without a collection: the commands
    that need one answer "not initialized". After a failed opening the
    embedder stays loaded. *)
Theorem failed_init_stays_uninitialized (e : env) (c : command)
  (p : process) (x : exn) :
  let db_path := default (home_db e) (c_db_path c) in
  cmd c = Some "init" → _collection p = None →
  makedirs e db_path = Raise x
  ∨ (makedirs e db_path = Ok tt ∧ _embedder p = false
     ∧ load_embedder e = Raise x)
  ∨ (makedirs e db_path = Ok tt
     ∧ (_embedder p = true ∨ load_embedder e = Ok tt)
     ∧ open_db e db_path = Raise x) →
  ∃ p',
    handle_command e c p = (Raise x, p')
    ∧ _collection p' = None
    ∧ calls p' = calls p
    ∧ ∀ c', cmd c' = Some "search" ∨ cmd c' = Some "index_file"
          ∨ cmd c' = Some "index_dir" ∨ cmd c' = Some "stats" →
        handle_command e c' p' = (Ok (RError "not initialized"), p').
Proof.
  intros db_path Hc Hnone Hfail.
  assert (∀ p', _collection p' = None →
            ∀ c', cmd c' = Some "search" ∨ cmd c' = Some "index_file"
                  ∨ cmd c' = Some "index_dir" ∨ cmd c' = Some "stats" →
              handle_command e c' p' = (Ok (RError "not initialized"), p'))
    as Hlater.
  { intros p' Hp' c' Hc'. unfold handle_command. rewrite Hp'.
    destruct Hc' as [->|[->|[->| ->]]]; reflexivity. }
  assert (handle_command e c p = handle_init e c p) as ->
    by (unfold handle_command; by rewrite Hc).
  unfold handle_init. fold db_path. rewrite Hnone.
  destruct Hfail as [Hm|[(Hm & He & Hl)|(Hm & Hl & Ho)]]; rewrite Hm.
  - exists p. split; [done|]. split; [done|]. split; [done|].
    by apply Hlater.
  - rewrite He, Hl. exists p. split; [done|]. split; [done|].
    split; [done|]. by apply Hlater.
  - assert ((if _embedder p then Ok tt else load_embedder e) = Ok tt) as ->
      by (destruct Hl as [-> | ->]; [done|by destruct (_embedder p)]).
    rewrite Ho. eexists. split; [reflexivity|]. split; [done|].
    split; [done|]. by apply Hlater.
Qed.

Lemma failed_init_stays_uninitialized_witness :
  ∃ p',
    handle_command no_database (request "init") uninitialized
    = (Raise OSError, p')
    ∧ _collection p' = None
    ∧ handle_command no_database (request "stats") p'
      = (Ok (RError "not initialized"), p').
Proof.
  destruct (failed_init_stays_uninitialized no_database (request "init")
              uninitialized OSError eq_refl eq_refl)
    as (p' & H1 & H2 & _ & H3).
  - right. right. split; [reflexivity|]. split; [by right|reflexivity].
  - exists p'. split; [exact H1|]. split; [exact H2|]. apply H3. auto.
Defined.

End FailureMore.
